(** * Core::EventEmitter (src/src/Core/EventEmitter.h)

    A shallow embedding of the cross-thread event emitter.  The header
    declares the data layout ([ListenerBase], [Listener<Arguments...>],
    [m_lastRawListenerId], [m_registry]) but none of the member function
    bodies; those are modelled from the spec and marked as such. *)

From Stdlib Require Import ZArith Lia List Bool Sorting.Sorted.
From stdpp Require Import base gmap.
Import ListNotations.

(** ** Identifiers and values *)

(** [unsigned int] is 32 bits wide; arithmetic on it wraps modulo [UINT_MOD]. *)
Definition uint_bits : Z := 32.

Definition UINT_MOD : Z := 2 ^ uint_bits.

(** [typedef TypeTag<unsigned int, class _ListenerId_Type> ListenerId;] *)
Abbreviation ListenerId := Z.

(** [typedef TypeTag<unsigned int, class _EventId_Type> EventId;] *)
Abbreviation EventId := Z.

(** [std::thread::id] *)
Abbreviation ThreadId := nat.

(** The stored [std::function]: only its identity matters to the emitter. *)
Abbreviation Callback := nat.

(** The values passed as [Arguments... arguments]. *)
Abbreviation Args := (list Z).

(** [enum EventType { Immediate = 0, ThreadLocal = 1, Async = 2 };] *)
Inductive EventType := Immediate | ThreadLocal | Async.

Definition EventType_value (t : EventType) : Z :=
  match t with Immediate => 0 | ThreadLocal => 1 | Async => 2 end%Z.

(** [struct ListenerBase] together with the [callback] member of the
    derived [Listener<Arguments...>]: the registry stores the derived
    object behind the base. *)
Record ListenerBase := mkListener {
  listenerId : ListenerId;
  once : bool;
  eventType : EventType;
  threadId : ThreadId;
  callback : Callback
}.

(** [std::shared_ptr<ListenerBase>]: the heap address identifies the object. *)
Record shared_ptr := mkPtr {
  addr : nat;
  obj : ListenerBase
}.

(** A bound ThreadLocal invocation waiting in the queue of [q_thread]. *)
Record Pending := mkPending {
  q_thread : ThreadId;
  q_ptr : shared_ptr;
  q_args : Args
}.

(** The members of [class EventEmitter].  [m_mutex] is not modelled: every
    operation below is one critical section, except [Emit], whose split
    into a locked snapshot and unlocked dispatch steps is modelled by the
    [Conc] step relation further down.  [m_pending] is the in-class
    per-thread pending queue of the spec (one list, tagged by thread). *)
Record EventEmitter := mkEmitter {
  m_lastRawListenerId : Z;
  m_registry : list (EventId * shared_ptr);
  m_pending : list Pending
}.

(** Observable effects of the emitter. *)
Inductive Event :=
| Called (t : ThreadId) (p : shared_ptr) (args : Args)
    (* Immediate: callback run synchronously on the emitting thread t *)
| Launched (p : shared_ptr) (args : Args)
    (* Async: callback launched on a detached execution context *)
| Enqueued (owner : ThreadId) (p : shared_ptr) (args : Args)
    (* ThreadLocal: bound invocation appended to the queue of owner *)
| Drained (t : ThreadId) (p : shared_ptr) (args : Args).
    (* ProcessEvents on thread t runs a queued invocation *)

(** One emitter in a process: the emitter, the next free heap address and
    the log of effects. *)
Record Sys := mkSys {
  em : EventEmitter;
  heap : nat;
  trace : list Event
}.

Definition init : Sys := mkSys (mkEmitter 0 [] []) 0 [].

#[global] Instance EventType_eq_dec : EqDecision EventType.
Proof. solve_decision. Defined.

#[global] Instance ListenerBase_eq_dec : EqDecision ListenerBase.
Proof. solve_decision. Defined.

#[global] Instance shared_ptr_eq_dec : EqDecision shared_ptr.
Proof. solve_decision. Defined.

(** ** What callbacks do *)

(** A stored [std::function] is arbitrary user code.  The emitter only
    observes whether an invocation returns or throws; [cb_throws cb args tr]
    says whether [cb], called with [args] after the effects [tr], throws.
    Everything below holds for every such behaviour. *)
Class CallbackBehaviour := {
  cb_throws : Callback -> Args -> list Event -> bool
}.

(** Callbacks that always return. *)
Definition no_throw : CallbackBehaviour := {| cb_throws _ _ _ := false |}.

(** The callback [c] throws on every call; the others return. *)
Definition throws_on (c : Callback) : CallbackBehaviour :=
  {| cb_throws cb _ _ := Nat.eqb cb c |}.

Section Emitter.

Context {CB : CallbackBehaviour}.

(** ** [std::multimap<EventId, std::shared_ptr<ListenerBase>>] *)

(** [multimap::insert]: ordered by key, a new element goes after the
    elements with an equivalent key (upper bound). *)
Fixpoint mm_insert (k : EventId) (v : shared_ptr)
    (l : list (EventId * shared_ptr)) : list (EventId * shared_ptr) :=
  match l with
  | [] => [(k, v)]
  | (k', v') :: l' =>
      if (k <? k')%Z then (k, v) :: l else (k', v') :: mm_insert k v l'
  end.

(** [multimap::equal_range], copied out in iteration order. *)
Definition equal_range (k : EventId) (l : list (EventId * shared_ptr))
    : list shared_ptr :=
  map snd (List.filter (fun kv => Z.eqb (fst kv) k) l).

(** [find_if] over the whole multimap followed by [erase] of the hit. *)
Fixpoint erase_first (f : shared_ptr -> bool)
    (l : list (EventId * shared_ptr)) : list (EventId * shared_ptr) :=
  match l with
  | [] => []
  | (k, v) :: l' => if f v then l' else (k, v) :: erase_first f l'
  end.

(** ** Registration and removal *)

(** Modelled from the spec: the body of [AddEventListener] (used by [On] and
    [Once]).  Under the lock it allocates the next id from
    [m_lastRawListenerId] ([++m_lastRawListenerId] in [unsigned int]
    arithmetic), builds the record with the calling thread's id and inserts
    it at the end of the [eventId] bucket. *)
Definition AddEventListener (s : Sys) (t : ThreadId) (eventId : EventId)
    (cb : Callback) (isOnce : bool) (ty : EventType) : ListenerId * Sys :=
  let e := em s in
  let lid := ((m_lastRawListenerId e + 1) mod UINT_MOD)%Z in
  let p := mkPtr (heap s) (mkListener lid isOnce ty t cb) in
  (lid, mkSys (mkEmitter lid (mm_insert eventId p (m_registry e)) (m_pending e))
              (S (heap s)) (trace s)).

Definition On (s : Sys) (t : ThreadId) (eventId : EventId) (cb : Callback)
    (ty : EventType) : ListenerId * Sys :=
  AddEventListener s t eventId cb false ty.

Definition Once (s : Sys) (t : ThreadId) (eventId : EventId) (cb : Callback)
    (ty : EventType) : ListenerId * Sys :=
  AddEventListener s t eventId cb true ty.

(** Modelled from the spec: the body of [Off].  A linear scan over all
    buckets erases the first record carrying [lid]; no match is a no-op. *)
Definition Off (s : Sys) (lid : ListenerId) : Sys :=
  let e := em s in
  mkSys (mkEmitter (m_lastRawListenerId e)
           (erase_first (fun p => Z.eqb (listenerId (obj p)) lid) (m_registry e))
           (m_pending e))
        (heap s) (trace s).

(** ** Dispatch *)

(** Modelled from the spec: the body of [Emit], step 1.  Under the lock the
    records of [eventId] are copied out. *)
Definition snapshot (s : Sys) (eventId : EventId) : list shared_ptr :=
  equal_range eventId (m_registry (em s)).

(** Modelled from the spec: the body of [Emit], steps 2 and 3 for one
    snapshotted record: route by its mode, then, if it is once-flagged,
    erase that record (pointer comparison) from the registry under the lock. *)
Definition dispatch (s : Sys) (t : ThreadId) (args : Args) (p : shared_ptr) : Sys :=
  let e := em s in
  let '(q, ev) :=
    match eventType (obj p) with
    | Immediate => (m_pending e, Called t p args)
    | ThreadLocal =>
        (m_pending e ++ [mkPending (threadId (obj p)) p args],
         Enqueued (threadId (obj p)) p args)
    | Async => (m_pending e, Launched p args)
    end in
  let reg :=
    if once (obj p)
    then erase_first (fun p' => Nat.eqb (addr p') (addr p)) (m_registry e)
    else m_registry e in
  mkSys (mkEmitter (m_lastRawListenerId e) reg q) (heap s) (trace s ++ [ev]).

(** Whether dispatching [p] throws: only an Immediate callback runs inside
    [Emit]; an Async callback's exception stays on its own execution
    context and a ThreadLocal record is only queued here. *)
Definition raises (s : Sys) (args : Args) (p : shared_ptr) : bool :=
  match eventType (obj p) with
  | Immediate => cb_throws (callback (obj p)) args (trace s)
  | ThreadLocal | Async => false
  end.

(** Spec, section 7: the exception of an Immediate callback propagates out
    of [Emit].  The call has happened, but the once-removal that follows a
    successful invocation is skipped. *)
Definition invoke_raising (s : Sys) (t : ThreadId) (args : Args) (p : shared_ptr) : Sys :=
  mkSys (em s) (heap s) (trace s ++ [Called t p args]).

(** The snapshotted records in order; a throwing callback ends the [Emit]
    and the records after it are not dispatched. *)
Fixpoint dispatch_all (s : Sys) (t : ThreadId) (args : Args)
    (ps : list shared_ptr) : Sys :=
  match ps with
  | [] => s
  | p :: ps' =>
      if raises s args p then invoke_raising s t args p
      else dispatch_all (dispatch s t args p) t args ps'
  end.

(** [Emit] called by thread [t], run without another thread interleaving. *)
Definition Emit (s : Sys) (t : ThreadId) (eventId : EventId) (args : Args) : Sys :=
  dispatch_all s t args (snapshot s eventId).

(** Modelled from the spec: the body of [ProcessEvents] called by thread
    [t]: runs the queued invocations of [t] in enqueue order and leaves the
    other threads' entries queued. *)
Definition ProcessEvents (s : Sys) (t : ThreadId) : Sys :=
  let e := em s in
  let mine := List.filter (fun q => Nat.eqb (q_thread q) t) (m_pending e) in
  let rest := List.filter (fun q => negb (Nat.eqb (q_thread q) t)) (m_pending e) in
  mkSys (mkEmitter (m_lastRawListenerId e) (m_registry e) rest) (heap s)
        (trace s ++ map (fun q => Drained t (q_ptr q) (q_args q)) mine).

(** ** Sequential executions *)

Inductive Op :=
| OpOn (t : ThreadId) (eventId : EventId) (cb : Callback) (ty : EventType)
| OpOnce (t : ThreadId) (eventId : EventId) (cb : Callback) (ty : EventType)
| OpOff (lid : ListenerId)
| OpEmit (t : ThreadId) (eventId : EventId) (args : Args)
| OpProcessEvents (t : ThreadId).

Definition exec_op (s : Sys) (o : Op) : option ListenerId * Sys :=
  match o with
  | OpOn t e cb ty => let '(lid, s') := On s t e cb ty in (Some lid, s')
  | OpOnce t e cb ty => let '(lid, s') := Once s t e cb ty in (Some lid, s')
  | OpOff lid => (None, Off s lid)
  | OpEmit t e args => (None, Emit s t e args)
  | OpProcessEvents t => (None, ProcessEvents s t)
  end.

(** The ids returned along a run, and the final state. *)
Fixpoint run_ids (s : Sys) (os : list Op) : list ListenerId * Sys :=
  match os with
  | [] => ([], s)
  | o :: os' =>
      let '(r, s1) := exec_op s o in
      let '(ids, s2) := run_ids s1 os' in
      (match r with Some lid => lid :: ids | None => ids end, s2)
  end.

Definition run (s : Sys) (os : list Op) : Sys := snd (run_ids s os).

(** ** Basic facts about the multimap *)

(** The multimap keeps its elements ordered by key. *)
Definition mm_sorted (l : list (EventId * shared_ptr)) : Prop :=
  StronglySorted (fun a b => (fst a <= fst b)%Z) l.

(** The ids returned by [On] and [Once] along a run. *)
Definition issued (s : Sys) (os : list Op) : list ListenerId := fst (run_ids s os).

Definition result_ids (r : option ListenerId) : list ListenerId :=
  match r with Some lid => [lid] | None => [] end.

(** ** The registry stays ordered by key *)

Definition reg_sorted (s : Sys) : Prop := mm_sorted (m_registry (em s)).

(** ** Immediate dispatch *)

Definition immediate_listener (p : shared_ptr) : Prop :=
  eventType (obj p) = Immediate /\ once (obj p) = false.

Definition on_ops (e : EventId) (regs : list (ThreadId * Callback)) : list Op :=
  map (fun tc => OpOn (fst tc) e (snd tc) Immediate) regs.

(** ** Listener id allocation *)

Definition is_registration (o : Op) : bool :=
  match o with OpOn _ _ _ _ | OpOnce _ _ _ _ => true | _ => false end.

Definition nregs (os : list Op) : nat := length (List.filter is_registration os).

Definition counter (s : Sys) : Z := m_lastRawListenerId (em s).

(** The literal reading of C7: every id returned by [On] or [Once] is
    strictly greater than every id the emitter issued before. *)
Definition ids_strictly_increase : Prop :=
  forall (os : list Op) (o : Op) (lid : ListenerId),
    fst (exec_op (run init os) o) = Some lid ->
    Forall (fun j => (j < lid)%Z) (issued init os).

(** ** How each operation changes the registry, the heap and the log *)

Definition reg (s : Sys) : list (EventId * shared_ptr) := m_registry (em s).

Definition reg_incl (l1 l2 : list (EventId * shared_ptr)) : Prop :=
  forall x, In x l1 -> In x l2.

(** Events that [Emit] produces for the record [p]: running, launching or
    enqueueing its callback. *)
Definition emitted_for (p : shared_ptr) (ev : Event) : Prop :=
  match ev with
  | Called _ q _ | Launched q _ | Enqueued _ q _ => q = p
  | Drained _ _ _ => False
  end.

(** The effects logged between two states of a run. *)
Definition new_events (before after : Sys) : list Event :=
  skipn (length (trace before)) (trace after).

(** ** Reaching a wrapped counter *)

(** [n] times: register a listener under event 0 and remove it again. *)
Fixpoint churn (n : nat) (c : Z) : list Op :=
  match n with
  | O => []
  | S n' => OpOn 0 0 2 Immediate :: OpOff ((c + 1) mod UINT_MOD)%Z
              :: churn n' ((c + 1) mod UINT_MOD)%Z
  end.

Definition wrap_count : nat := Z.to_nat (UINT_MOD - 1).

(** One listener X (id 1), then 2^32 - 1 register/remove rounds: the
    counter is back at 0. *)
Definition wrap_ops : list Op := OpOn 0 0 0 Immediate :: churn wrap_count 1.

Definition wrap_X : shared_ptr := mkPtr 0 (mkListener 1 false Immediate 0 0).

Definition wrap_Y : shared_ptr := mkPtr (S wrap_count) (mkListener 1 false Immediate 0 1).

(** ** Off *)

Definition has_id (lid : ListenerId) (p : shared_ptr) : bool :=
  Z.eqb (listenerId (obj p)) lid.

Definition count_id (lid : ListenerId) (l : list (EventId * shared_ptr)) : nat :=
  length (List.filter (fun kv => has_id lid (snd kv)) l).

(** The literal reading of C6: [Off] of an id naming no record leaves the
    emitter unchanged, and calling [Off] twice with the same id does
    nothing more than calling it once. *)
Definition off_unknown_noop_and_twice_harmless : Prop :=
  (forall (s : Sys) (lid : ListenerId),
     Forall (fun kv => listenerId (obj (snd kv)) <> lid) (reg s) -> Off s lid = s) /\
  (forall (os : list Op) (lid : ListenerId),
     Off (Off (run init os) lid) lid = Off (run init os) lid).

(** ** Id uniqueness while the counter has not wrapped *)

Definition reg_ids (l : list (EventId * shared_ptr)) : list ListenerId :=
  map (fun kv => listenerId (obj (snd kv))) l.

Definition ids_ok (s : Sys) : Prop :=
  (0 <= counter s)%Z /\
  Forall (fun kv => (listenerId (obj (snd kv)) <= counter s)%Z) (reg s) /\
  List.NoDup (reg_ids (reg s)).

(** The only record carrying [lid] is [p] (if any). *)
Definition only_p (lid : ListenerId) (p : shared_ptr) (s : Sys) : Prop :=
  forall kv, In kv (reg s) -> listenerId (obj (snd kv)) = lid -> snd kv = p.

Fixpoint erase_all (fs : list (shared_ptr -> bool)) (l : list (EventId * shared_ptr))
    : list (EventId * shared_ptr) :=
  match fs with [] => l | f :: fs' => erase_all fs' (erase_first f l) end.

(** ** Off silences a listener *)

(** The literal reading of C3: after [Off lid], where [lid] was returned by
    the registration of record [p], no later [Emit] runs, launches or
    enqueues [p]. *)
Definition off_silences_listener : Prop :=
  forall (os0 : list Op) (t : ThreadId) (e : EventId) (cb : Callback) (isOnce : bool)
         (ty : EventType) (os_mid os_after : list Op),
    let s0 := run init os0 in
    let lid := fst (AddEventListener s0 t e cb isOnce ty) in
    let p := mkPtr (heap s0) (mkListener lid isOnce ty t cb) in
    let s2 := Off (run (snd (AddEventListener s0 t e cb isOnce ty)) os_mid) lid in
    forall ev, In ev (new_events s2 (run s2 os_after)) -> ~ emitted_for p ev.

(** ** Once listeners *)

Definition cnt {A} (f : A -> bool) (l : list A) : nat := length (List.filter f l).


Definition fired_by_emit (p : shared_ptr) (ev : Event) : bool :=
  match ev with Called _ q _ | Launched q _ => bool_decide (q = p) | _ => false end.

Definition enqueued_of (p : shared_ptr) (ev : Event) : bool :=
  match ev with Enqueued _ q _ => bool_decide (q = p) | _ => false end.

Definition drained_of (p : shared_ptr) (ev : Event) : bool :=
  match ev with Drained _ q _ => bool_decide (q = p) | _ => false end.

Definition pending_of (p : shared_ptr) (q : Pending) : bool := bool_decide (q_ptr q = p).

Definition ev_ptr (ev : Event) : shared_ptr :=
  match ev with Called _ q _ | Launched q _ | Enqueued _ q _ | Drained _ q _ => q end.

Definition same_addr (a : nat) (q : shared_ptr) : bool := Nat.eqb (addr q) a.

(** Every object the emitter refers to was allocated. *)
Definition addrs_ok (s : Sys) : Prop :=
  Forall (fun kv => (addr (snd kv) < heap s)%nat) (reg s) /\
  Forall (fun q => (addr (q_ptr q) < heap s)%nat) (m_pending (em s)) /\
  Forall (fun ev => (addr (ev_ptr ev) < heap s)%nat) (trace s).



(** ** Overlapping [Emit] calls *)













(** ** ThreadLocal delivery *)

(** The invocations (record and arguments) queued for thread [b], in log order. *)
Fixpoint enqueued_to (b : ThreadId) (tr : list Event) : list (shared_ptr * Args) :=
  match tr with
  | [] => []
  | Enqueued o q a :: tr' => if Nat.eqb o b then (q, a) :: enqueued_to b tr' else enqueued_to b tr'
  | _ :: tr' => enqueued_to b tr'
  end.

(** The invocations run by [ProcessEvents] on thread [b], in log order. *)
Fixpoint drained_on (b : ThreadId) (tr : list Event) : list (shared_ptr * Args) :=
  match tr with
  | [] => []
  | Drained t q a :: tr' => if Nat.eqb t b then (q, a) :: drained_on b tr' else drained_on b tr'
  | _ :: tr' => drained_on b tr'
  end.

(** The invocations still waiting in the queue of thread [b], front first. *)
Definition pending_on (b : ThreadId) (l : list Pending) : list (shared_ptr * Args) :=
  map (fun q => (q_ptr q, q_args q)) (List.filter (fun q => Nat.eqb (q_thread q) b) l).

(** An event about a ThreadLocal record only queues it for, or runs it on,
    the record's owning thread. *)
Definition tl_delivery_ok (ev : Event) : Prop :=
  eventType (obj (ev_ptr ev)) = ThreadLocal ->
  match ev with
  | Enqueued o q _ | Drained o q _ => o = threadId (obj q)
  | Called _ _ _ | Launched _ _ => False
  end.

Definition tl_inv (s : Sys) : Prop :=
  Forall tl_delivery_ok (trace s) /\
  Forall (fun q => q_thread q = threadId (obj (q_ptr q)) /\
                   eventType (obj (q_ptr q)) = ThreadLocal) (m_pending (em s)) /\
  forall b, drained_on b (trace s) ++ pending_on b (m_pending (em s)) = enqueued_to b (trace s).

(** ** Several emitters in one process *)

(** Every [EventEmitter] object in the process, by object address, sharing
    the heap and the log of effects. *)
Record World := mkWorld {
  w_emitters : gmap nat EventEmitter;
  w_heap : nat;
  w_trace : list Event
}.

(** A member function call [o] on the emitter object [i]: it runs on that
    object's members only. *)
Definition world_op (w : World) (i : nat) (o : Op) : World :=
  match w_emitters w !! i with
  | Some e =>
      let s' := snd (exec_op (mkSys e (w_heap w) (w_trace w)) o) in
      mkWorld (<[i := em s']> (w_emitters w)) (heap s') (trace s')
  | None => w
  end.

Fixpoint world_run (w : World) (ops : list (nat * Op)) : World :=
  match ops with
  | [] => w
  | (i, o) :: ops' => world_run (world_op w i o) ops'
  end.

Definition two_emitters : World :=
  mkWorld (<[0%nat := mkEmitter 0 [] []]> (<[1%nat := mkEmitter 0 [] []]> ∅)) 0 [].

Definition two_emitters_ops : list (nat * Op) :=
  [(0%nat, OpOn 1 7 10 Immediate); (0%nat, OpOnce 1 7 11 ThreadLocal);
   (0%nat, OpEmit 2 7 [3%Z]); (0%nat, OpOff 1); (0%nat, OpProcessEvents 1)].

(** ** Further views of the emitter *)

(** The effect [dispatch] logs for one snapshotted record. *)
Definition emit_event (t : ThreadId) (args : Args) (q : shared_ptr) : Event :=
  match eventType (obj q) with
  | Immediate => Called t q args
  | ThreadLocal => Enqueued (threadId (obj q)) q args
  | Async => Launched q args
  end.

(** A synchronous call of one of the records [ps]. *)
Definition called_among (ps : list shared_ptr) (ev : Event) : bool :=
  match ev with
  | Called _ q _ => existsb (fun q' => bool_decide (q' = q)) ps
  | _ => false
  end.

(** The literal reading of C1: after registering distinct Immediate
    callbacks under [e], an [Emit(e, args)] by thread [t] calls each of
    their records once, on [t], in registration order. *)
Definition emit_runs_registered_in_order : Prop :=
  forall (os0 : list Op) (e : EventId) (regs : list (ThreadId * Callback))
         (t : ThreadId) (args : Args),
    List.NoDup (map snd regs) ->
    let s1 := run (run init os0) (on_ops e regs) in
    exists ps,
      map (fun p => callback (obj p)) ps = map snd regs /\
      List.filter (called_among ps) (new_events s1 (Emit s1 t e args))
        = map (fun p => Called t p args) ps.

(** The objects the registry points to, by address. *)
Definition obj_addrs (l : list (EventId * shared_ptr)) : list nat :=
  map (fun kv => addr (snd kv)) l.

(** * Proofs *)

Lemma mm_insert_perm (k : EventId) v l :
  forall x, In x (mm_insert k v l) <-> (k, v) = x \/ In x l.
Proof.
  induction l as [|[k' v'] l IH]; intros x; simpl.
  - tauto.
  - destruct (k <? k')%Z; simpl; [tauto|]. rewrite IH. tauto.
Qed.

Lemma mm_insert_sorted (k : EventId) v l :
  mm_sorted l -> mm_sorted (mm_insert k v l).
Proof.
  unfold mm_sorted. induction l as [|[k' v'] l IH]; intros Hs; simpl.
  - repeat constructor.
  - inversion Hs as [|? ? Hl Hf]; subst.
    destruct (k <? k')%Z eqn:Hlt.
    + apply Z.ltb_lt in Hlt. constructor; [exact Hs|].
      constructor; [simpl; lia|].
      rewrite List.Forall_forall in *. intros [a b] Hab. specialize (Hf _ Hab).
      simpl in *; lia.
    + apply Z.ltb_ge in Hlt. constructor; [apply IH; exact Hl|].
      apply List.Forall_forall. intros x Hx. apply mm_insert_perm in Hx.
      destruct Hx as [<-|Hx]; [simpl; lia|].
      rewrite List.Forall_forall in Hf. apply Hf, Hx.
Qed.

Lemma equal_range_mm_insert_same (k : EventId) v l :
  mm_sorted l -> equal_range k (mm_insert k v l) = equal_range k l ++ [v].
Proof.
  unfold mm_sorted, equal_range.
  induction l as [|[k' v'] l IH]; intros Hs; simpl.
  - rewrite Z.eqb_refl. reflexivity.
  - inversion Hs as [|? ? Hl Hf]; subst.
    destruct (k <? k')%Z eqn:Hlt.
    + apply Z.ltb_lt in Hlt. simpl. rewrite Z.eqb_refl.
      assert (Hne : (k' =? k)%Z = false) by (apply Z.eqb_neq; lia).
      rewrite Hne.
      assert (Hnil : List.filter (fun kv => (fst kv =? k)%Z) l = []).
      { clear IH Hs Hl. induction l as [|[a b] l IHl]; [reflexivity|].
        inversion Hf as [|? ? Ha Hf']; subst. simpl in Ha.
        simpl. replace (a =? k)%Z with false by (symmetry; apply Z.eqb_neq; lia).
        apply IHl; assumption. }
      rewrite Hnil. reflexivity.
    + simpl. destruct (k' =? k)%Z; simpl; rewrite IH by exact Hl; reflexivity.
Qed.

Lemma equal_range_mm_insert_other (k k' : EventId) v l :
  k <> k' -> equal_range k' (mm_insert k v l) = equal_range k' l.
Proof.
  intros Hne. unfold equal_range.
  induction l as [|[a b] l IH]; simpl.
  - replace (k =? k')%Z with false by (symmetry; apply Z.eqb_neq; exact Hne).
    reflexivity.
  - destruct (k <? a)%Z; simpl.
    + replace (k =? k')%Z with false by (symmetry; apply Z.eqb_neq; exact Hne).
      reflexivity.
    + destruct (a =? k')%Z; simpl; rewrite IH; reflexivity.
Qed.

Lemma erase_first_incl f (l : list (EventId * shared_ptr)) :
  forall x, In x (erase_first f l) -> In x l.
Proof.
  induction l as [|[k v] l IH]; intros x; simpl; [tauto|].
  destruct (f v); simpl; [tauto|]. intros [H|H]; [left; exact H|right; apply IH, H].
Qed.

Lemma erase_first_sorted f l : mm_sorted l -> mm_sorted (erase_first f l).
Proof.
  unfold mm_sorted. induction l as [|[k v] l IH]; intros Hs; simpl; [constructor|].
  inversion Hs as [|? ? Hl Hf]; subst.
  destruct (f v); [exact Hl|].
  constructor; [apply IH, Hl|].
  rewrite List.Forall_forall in *. intros x Hx. apply Hf, (erase_first_incl f), Hx.
Qed.

Lemma erase_first_none f (l : list (EventId * shared_ptr)) :
  Forall (fun kv => f (snd kv) = false) l -> erase_first f l = l.
Proof.
  induction l as [|[k v] l IH]; intros H; simpl; [reflexivity|].
  inversion H as [|? ? Hv Hl]; subst. simpl in Hv. rewrite Hv, IH by exact Hl.
  reflexivity.
Qed.

(** ** Runs *)

Lemma run_nil s : run s [] = s.
Proof. reflexivity. Qed.

Lemma run_cons s o os : run s (o :: os) = run (snd (exec_op s o)) os.
Proof.
  unfold run. simpl. destruct (exec_op s o) as [r s1]. simpl.
  destruct (run_ids s1 os) as [ids s2]. reflexivity.
Qed.

Lemma run_app s os1 os2 : run s (os1 ++ os2) = run (run s os1) os2.
Proof.
  revert s. induction os1 as [|o os1 IH]; intros s; [reflexivity|].
  simpl. rewrite !run_cons. apply IH.
Qed.

Lemma issued_cons s o os :
  issued s (o :: os) = result_ids (fst (exec_op s o)) ++ issued (snd (exec_op s o)) os.
Proof.
  unfold issued. simpl. destruct (exec_op s o) as [r s1]. simpl.
  destruct (run_ids s1 os) as [ids s2]. destruct r; reflexivity.
Qed.

Lemma issued_app s os1 os2 :
  issued s (os1 ++ os2) = issued s os1 ++ issued (run s os1) os2.
Proof.
  revert s. induction os1 as [|o os1 IH]; intros s; [reflexivity|].
  simpl. rewrite !issued_cons, IH, run_cons, app_assoc. reflexivity.
Qed.

Lemma dispatch_sorted s t args p : reg_sorted s -> reg_sorted (dispatch s t args p).
Proof.
  unfold reg_sorted, dispatch. intros H.
  destruct (eventType (obj p)); simpl;
    destruct (once (obj p)); simpl; try apply erase_first_sorted; exact H.
Qed.

(** A property kept by every dispatch step and by a throwing call is kept
    by [dispatch_all]. *)
Lemma dispatch_all_preserves (P : Sys -> Prop) t args :
  (forall s q, P s -> raises s args q = false -> P (dispatch s t args q)) ->
  (forall s q, P s -> raises s args q = true -> P (invoke_raising s t args q)) ->
  forall ps s, P s -> P (dispatch_all s t args ps).
Proof.
  intros Hd Hr ps. induction ps as [|q ps IH]; intros s H; simpl; [exact H|].
  destruct (raises s args q) eqn:E; [apply Hr; assumption|apply IH, Hd; assumption].
Qed.

Lemma dispatch_all_sorted s t args ps :
  reg_sorted s -> reg_sorted (dispatch_all s t args ps).
Proof.
  apply dispatch_all_preserves; [intros; apply dispatch_sorted; assumption|].
  intros s' q H _. exact H.
Qed.

Lemma exec_op_sorted s o : reg_sorted s -> reg_sorted (snd (exec_op s o)).
Proof.
  intros H. destruct o; simpl.
  - apply mm_insert_sorted, H.
  - apply mm_insert_sorted, H.
  - apply erase_first_sorted, H.
  - apply dispatch_all_sorted, H.
  - exact H.
Qed.

Lemma run_sorted s os : reg_sorted s -> reg_sorted (run s os).
Proof.
  revert s. induction os as [|o os IH]; intros s H; [exact H|].
  rewrite run_cons. apply IH, exec_op_sorted, H.
Qed.

Lemma init_sorted : reg_sorted init.
Proof. constructor. Qed.

Lemma reachable_sorted os : reg_sorted (run init os).
Proof. apply run_sorted, init_sorted. Qed.

Lemma on_ops_snapshot s e regs :
  reg_sorted s ->
  exists ps,
    snapshot (run s (on_ops e regs)) e = snapshot s e ++ ps /\
    map (fun p => callback (obj p)) ps = map snd regs /\
    Forall immediate_listener ps.
Proof.
  revert s. induction regs as [|[t cb] regs IH]; intros s Hs.
  - exists []. rewrite app_nil_r. repeat split; constructor.
  - simpl. rewrite run_cons.
    set (s1 := snd (exec_op s (OpOn t e cb Immediate))).
    assert (Hs1 : reg_sorted s1) by (apply exec_op_sorted, Hs).
    destruct (IH s1 Hs1) as (ps & Hsnap & Hcb & Hall).
    exists (mkPtr (heap s) (mkListener ((m_lastRawListenerId (em s) + 1) mod UINT_MOD)
                              false Immediate t cb) :: ps).
    split; [|split].
    + rewrite Hsnap. unfold s1, snapshot. simpl.
      rewrite equal_range_mm_insert_same by exact Hs.
      rewrite <- app_assoc. reflexivity.
    + simpl. rewrite Hcb. reflexivity.
    + constructor; [split; reflexivity|exact Hall].
Qed.

Lemma new_events_app (s s' : Sys) l :
  trace s' = trace s ++ l -> new_events s s' = l.
Proof.
  intros H. unfold new_events. rewrite H. generalize (trace s) as a.
  induction a as [|x a IH]; simpl; [reflexivity|exact IH].
Qed.

Lemma dispatch_emit_event s t args q :
  trace (dispatch s t args q) = trace s ++ [emit_event t args q].
Proof. unfold dispatch, emit_event. destruct (eventType (obj q)); reflexivity. Qed.

(** When no callback of the snapshot throws, [Emit] logs one effect per
    snapshotted record, in order. *)
Lemma dispatch_all_no_raise s t args ps :
  Forall (fun q => forall tr, cb_throws (callback (obj q)) args tr = false) ps ->
  trace (dispatch_all s t args ps) = trace s ++ map (emit_event t args) ps.
Proof.
  revert s. induction ps as [|q ps IH]; intros s H; simpl.
  - rewrite app_nil_r. reflexivity.
  - inversion H as [|? ? Hq Hps]; subst.
    assert (Hr : raises s args q = false)
      by (unfold raises; destruct (eventType (obj q)); [apply Hq|reflexivity|reflexivity]).
    rewrite Hr, IH by exact Hps. rewrite dispatch_emit_event, <- app_assoc. reflexivity.
Qed.

(** C1 (amended): after registering Immediate listeners under [e] with
    [On] in a reachable state, their records follow the records already
    under [e]; if none of the callbacks under [e] throws for [args], then
    [Emit(e, args)] by thread [t] logs the effects of the earlier records
    and then calls each new callback exactly once, on [t], in registration
    order. *)
Theorem Emit_immediate_in_registration_order
    (os0 : list Op) (e : EventId) (regs : list (ThreadId * Callback))
    (t : ThreadId) (args : Args) :
  let s0 := run init os0 in
  let s1 := run s0 (on_ops e regs) in
  Forall (fun q => forall tr, cb_throws (callback (obj q)) args tr = false) (snapshot s1 e) ->
  exists ps,
    snapshot s1 e = snapshot s0 e ++ ps /\
    map (fun p => callback (obj p)) ps = map snd regs /\
    Forall immediate_listener ps /\
    new_events s1 (Emit s1 t e args) =
      map (emit_event t args) (snapshot s0 e) ++ map (fun p => Called t p args) ps.
Proof.
  intros s0 s1 Hnt.
  destruct (on_ops_snapshot s0 e regs (reachable_sorted os0)) as (ps & Hsnap & Hcb & Hall).
  fold s1 in Hsnap.
  exists ps. split; [exact Hsnap|split; [exact Hcb|split; [exact Hall|]]].
  apply new_events_app. unfold Emit. rewrite dispatch_all_no_raise by exact Hnt.
  rewrite Hsnap, map_app. f_equal. f_equal.
  apply map_ext_in. intros q Hq. rewrite List.Forall_forall in Hall.
  destruct (Hall q Hq) as [Hty _]. unfold emit_event. rewrite Hty. reflexivity.
Qed.

Lemma exec_op_counter s o :
  counter (snd (exec_op s o)) =
  if is_registration o then ((counter s + 1) mod UINT_MOD)%Z else counter s.
Proof.
  destruct o; simpl; try reflexivity.
  unfold Emit. apply (dispatch_all_preserves (fun s' => counter s' = counter s)).
  - intros s' q H _. rewrite <- H. unfold dispatch, counter. destruct (eventType (obj q)); reflexivity.
  - intros s' q H _. exact H.
  - reflexivity.
Qed.

Lemma exec_op_result s o :
  result_ids (fst (exec_op s o)) =
  if is_registration o then [((counter s + 1) mod UINT_MOD)%Z] else [].
Proof. destruct o; reflexivity. Qed.

Lemma seq_shift_map {A} (f : nat -> A) a n :
  map f (seq (S a) n) = map (fun k => f (S k)) (seq a n).
Proof. rewrite <- seq_shift, map_map. reflexivity. Qed.

(** Starting from counter [c], the [k]-th id issued (from 1) is
    [(c + k) mod 2^32], and the counter ends at [(c + n) mod 2^32]. *)
Lemma issued_formula s os :
  (0 <= counter s < UINT_MOD)%Z ->
  issued s os =
    map (fun k => ((counter s + Z.of_nat k) mod UINT_MOD)%Z) (seq 1 (nregs os)) /\
  counter (run s os) = ((counter s + Z.of_nat (nregs os)) mod UINT_MOD)%Z.
Proof.
  unfold nregs. revert s. induction os as [|o os IH]; intros s Hc.
  - simpl. split; [reflexivity|]. rewrite Z.add_0_r, Z.mod_small by exact Hc.
    reflexivity.
  - rewrite issued_cons, run_cons, exec_op_result.
    pose proof (exec_op_counter s o) as Hco.
    assert (Hc1 : (0 <= counter (snd (exec_op s o)) < UINT_MOD)%Z).
    { rewrite Hco. destruct (is_registration o); [|exact Hc].
      apply Z.mod_pos_bound. unfold UINT_MOD, uint_bits. lia. }
    destruct (IH _ Hc1) as [Hids Hcnt]. rewrite Hids, Hcnt, Hco.
    simpl List.filter. destruct (is_registration o).
    + simpl length.
      set (n := length (List.filter is_registration os)).
      change (seq 1 (S n)) with (1%nat :: seq 2 n). cbn [map app].
      rewrite (seq_shift_map _ 1 n).
      assert (HM : UINT_MOD <> 0%Z) by (unfold UINT_MOD, uint_bits; lia).
      split.
      * simpl. f_equal.
        apply map_ext. intros k. rewrite Z.add_mod_idemp_l by exact HM.
        f_equal. lia.
      * rewrite Z.add_mod_idemp_l by exact HM. f_equal. lia.
    + split; reflexivity.
Qed.

Lemma counter_init : counter init = 0%Z.
Proof. reflexivity. Qed.

Lemma issued_init os :
  issued init os = map (fun k => (Z.of_nat k mod UINT_MOD)%Z) (seq 1 (nregs os)) /\
  counter (run init os) = (Z.of_nat (nregs os) mod UINT_MOD)%Z.
Proof.
  destruct (issued_formula init os) as [H1 H2].
  - rewrite counter_init. unfold UINT_MOD, uint_bits. lia.
  - rewrite counter_init in H1, H2. split; [exact H1|exact H2].
Qed.

Lemma issued_length s os : length (issued s os) = nregs os.
Proof.
  unfold nregs. revert s. induction os as [|o os IH]; intros s; [reflexivity|].
  rewrite issued_cons, exec_op_result, length_app, IH. simpl.
  destruct (is_registration o); reflexivity.
Qed.

Lemma nth_map_seq (f : nat -> Z) a n k d :
  (k < n)%nat -> nth k (map f (seq a n)) d = f (a + k)%nat.
Proof.
  intros Hk. rewrite (nth_indep _ d (f 0%nat)) by (rewrite length_map, length_seq; exact Hk).
  rewrite map_nth, seq_nth by exact Hk. reflexivity.
Qed.

Lemma seq_strictly_sorted a n : StronglySorted Z.lt (map Z.of_nat (seq a n)).
Proof.
  revert a. induction n as [|n IH]; intros a; simpl; constructor; [apply IH|].
  apply List.Forall_forall. intros x Hx. apply in_map_iff in Hx.
  destruct Hx as (k & <- & Hk). apply in_seq in Hk. lia.
Qed.

Lemma UINT_MOD_pos : (0 < UINT_MOD)%Z.
Proof. unfold UINT_MOD, uint_bits. lia. Qed.

Lemma nregs_repeat o n : is_registration o = true -> nregs (repeat o n) = n.
Proof.
  intros Ho. unfold nregs. induction n as [|n IH]; [reflexivity|].
  simpl. rewrite Ho. simpl. rewrite IH. reflexivity.
Qed.

Lemma exec_op_Some s o lid :
  fst (exec_op s o) = Some lid ->
  is_registration o = true /\ lid = ((counter s + 1) mod UINT_MOD)%Z.
Proof.
  intros H. pose proof (exec_op_result s o) as Hr. rewrite H in Hr. simpl in Hr.
  destruct (is_registration o); [|discriminate].
  injection Hr as ->. split; reflexivity.
Qed.

(** C9: ids come from the [unsigned int] counter [m_lastRawListenerId],
    which wraps modulo 2^32: the [k]-th id issued by a fresh emitter
    (counting from 0) is [(k + 1) mod 2^32] and the counter holds the
    number of registrations mod 2^32; so while fewer than 2^32
    registrations have been made the ids strictly increase, and beyond
    2^32 registrations they repeat (the (2^32+1)-th id equals the first). *)
Theorem listener_ids_wrap (os : list Op) :
  let ids := issued init os in
  (forall k, (k < length ids)%nat -> nth k ids 0%Z = ((Z.of_nat k + 1) mod UINT_MOD)%Z) /\
  counter (run init os) = (Z.of_nat (length ids) mod UINT_MOD)%Z /\
  ((Z.of_nat (length ids) < UINT_MOD)%Z -> StronglySorted Z.lt ids) /\
  ((UINT_MOD < Z.of_nat (length ids))%Z ->
     nth (Z.to_nat UINT_MOD) ids 0%Z = nth 0 ids 0%Z).
Proof.
  intros ids. destruct (issued_init os) as [Hids Hcnt].
  assert (Hlen : length ids = nregs os) by apply issued_length.
  unfold ids in *. rewrite Hlen. rewrite Hids.
  split; [|split; [exact Hcnt|split]].
  - intros k Hk. rewrite nth_map_seq by exact Hk. f_equal. lia.
  - intros Hn. erewrite map_ext_in.
    + apply seq_strictly_sorted.
    + intros k Hk. apply in_seq in Hk. simpl. apply Z.mod_small. lia.
  - intros Hn. pose proof UINT_MOD_pos.
    rewrite !nth_map_seq by lia.
    replace (Z.of_nat (1 + Z.to_nat UINT_MOD)) with (1 + 1 * UINT_MOD)%Z by lia.
    rewrite Z.mod_add by lia. reflexivity.
Qed.

(** C7 (amended): as long as fewer than 2^32 - 1 registrations were made
    before the call, the id returned by [On] or [Once] is strictly greater
    than every id the emitter issued before. *)
Theorem On_id_fresh_before_wrap (os : list Op) (o : Op) (lid : ListenerId) :
  (Z.of_nat (nregs os) < UINT_MOD - 1)%Z ->
  fst (exec_op (run init os) o) = Some lid ->
  Forall (fun j => (j < lid)%Z) (issued init os).
Proof.
  intros Hn Ho. apply exec_op_Some in Ho as [_ ->].
  destruct (issued_init os) as [Hids Hcnt]. rewrite Hids, Hcnt.
  rewrite (Z.mod_small (Z.of_nat (nregs os))) by lia.
  rewrite (Z.mod_small (Z.of_nat (nregs os) + 1)) by lia.
  apply List.Forall_forall. intros j Hj. apply in_map_iff in Hj.
  destruct Hj as (k & <- & Hk). apply in_seq in Hk.
  rewrite Z.mod_small by lia. lia.
Qed.

Lemma dispatch_reg s t args p :
  reg_incl (reg (dispatch s t args p)) (reg s) /\
  heap (dispatch s t args p) = heap s /\
  counter (dispatch s t args p) = counter s.
Proof.
  unfold dispatch, reg, counter, reg_incl.
  destruct (eventType (obj p)); simpl;
    (split; [|split; reflexivity]); intros x Hx;
    destruct (once (obj p)); try (apply (erase_first_incl _ _ _ Hx)); exact Hx.
Qed.

Lemma dispatch_all_reg s t args ps :
  reg_incl (reg (dispatch_all s t args ps)) (reg s) /\
  heap (dispatch_all s t args ps) = heap s /\
  counter (dispatch_all s t args ps) = counter s.
Proof.
  apply (dispatch_all_preserves (fun s' => reg_incl (reg s') (reg s) /\
                                   heap s' = heap s /\ counter s' = counter s)).
  - intros s' q (H1 & H2 & H3) _. destruct (dispatch_reg s' t args q) as (H4 & H5 & H6).
    split; [intros x Hx; apply H1, H4, Hx|split; congruence].
  - intros s' q H _. exact H.
  - split; [intros x Hx; exact Hx|split; reflexivity].
Qed.

(** Registrations insert one fresh record; every other operation only
    removes records and allocates nothing. *)
Lemma exec_op_reg s o :
  (is_registration o = false ->
     reg_incl (reg (snd (exec_op s o))) (reg s) /\
     heap (snd (exec_op s o)) = heap s /\ counter (snd (exec_op s o)) = counter s) /\
  (is_registration o = true ->
     exists e p,
       reg (snd (exec_op s o)) = mm_insert e p (reg s) /\
       addr p = heap s /\
       listenerId (obj p) = ((counter s + 1) mod UINT_MOD)%Z /\
       heap (snd (exec_op s o)) = S (heap s) /\
       counter (snd (exec_op s o)) = ((counter s + 1) mod UINT_MOD)%Z).
Proof.
  destruct o as [t e cb ty|t e cb ty|lid|t e args|t]; simpl; split; intros H;
    try discriminate.
  - eexists e, _. repeat split; reflexivity.
  - eexists e, _. repeat split; reflexivity.
  - repeat split. intros x Hx. apply (erase_first_incl _ _ _ Hx).
  - apply dispatch_all_reg.
  - repeat split. intros x Hx. exact Hx.
Qed.

(** The log only grows. *)
Lemma dispatch_trace s t args p :
  exists ev, trace (dispatch s t args p) = trace s ++ [ev].
Proof.
  unfold dispatch. destruct (eventType (obj p)); simpl; eexists; reflexivity.
Qed.

Lemma dispatch_event_ptr s t args p :
  trace (dispatch s t args p) = trace s ++
    [match eventType (obj p) with
     | Immediate => Called t p args
     | ThreadLocal => Enqueued (threadId (obj p)) p args
     | Async => Launched p args
     end].
Proof. unfold dispatch. destruct (eventType (obj p)); reflexivity. Qed.

(** [Emit] logs events only for the records it snapshotted. *)
Lemma dispatch_all_events s t args ps :
  exists l, trace (dispatch_all s t args ps) = trace s ++ l /\
    forall ev q, In ev l -> emitted_for q ev -> In q ps.
Proof.
  revert s. induction ps as [|p ps IH]; intros s; simpl.
  - exists []. rewrite app_nil_r. split; [reflexivity|intros ev q []].
  - destruct (raises s args p).
    { exists [Called t p args]. split; [reflexivity|].
      intros ev q [<-|[]] Hq. left. exact Hq. }
    destruct (IH (dispatch s t args p)) as (l & Hl & Hin).
    rewrite dispatch_event_ptr in Hl.
    eexists. rewrite Hl, <- app_assoc. split; [reflexivity|].
    intros ev q Hev Hq. apply in_app_or in Hev as [[<-|[]]|Hev].
    + left. destruct (eventType (obj p)); simpl in Hq; exact Hq.
    + right. apply (Hin ev q Hev Hq).
Qed.

Lemma exec_op_events s o :
  exists l, trace (snd (exec_op s o)) = trace s ++ l /\
    forall ev q, In ev l -> emitted_for q ev -> In q (map snd (reg s)).
Proof.
  destruct o as [t e cb ty|t e cb ty|lid|t e args|t]; simpl.
  - exists []. rewrite app_nil_r. split; [reflexivity|intros ev q []].
  - exists []. rewrite app_nil_r. split; [reflexivity|intros ev q []].
  - exists []. rewrite app_nil_r. split; [reflexivity|intros ev q []].
  - destruct (dispatch_all_events s t args (snapshot s e)) as (l & Hl & Hin).
    exists l. split; [exact Hl|]. intros ev q Hev Hq.
    specialize (Hin ev q Hev Hq). unfold snapshot, equal_range in Hin.
    apply in_map_iff in Hin as ([k v] & <- & Hkv).
    apply filter_In in Hkv as [Hkv _]. apply in_map_iff. exists (k, v). split; [reflexivity|exact Hkv].
  - eexists. split; [reflexivity|]. intros ev q Hev Hq.
    apply in_map_iff in Hev as (x & <- & _). simpl in Hq. contradiction.
Qed.

Lemma erase_first_mm_insert f k v (l : list (EventId * shared_ptr)) :
  f v = true -> Forall (fun kv => f (snd kv) = false) l ->
  erase_first f (mm_insert k v l) = l.
Proof.
  intros Hv. induction l as [|[k' v'] l IH]; intros Hl; simpl.
  - rewrite Hv. reflexivity.
  - inversion Hl as [|? ? Hv' Hl']; subst. simpl in Hv'.
    destruct (k <? k')%Z; simpl.
    + rewrite Hv. reflexivity.
    + rewrite Hv', IH by exact Hl'. reflexivity.
Qed.

Lemma run_churn n : forall c R q h tr,
  (0 <= c < UINT_MOD)%Z ->
  (forall j, (1 <= j <= Z.of_nat n)%Z ->
     Forall (fun kv => listenerId (obj (snd kv)) <> ((c + j) mod UINT_MOD)%Z) R) ->
  run (mkSys (mkEmitter c R q) h tr) (churn n c)
  = mkSys (mkEmitter ((c + Z.of_nat n) mod UINT_MOD)%Z R q) (h + n) tr.
Proof.
  pose proof UINT_MOD_pos as Hpos.
  induction n as [|n IH]; intros c R q h tr Hc HR.
  - simpl. rewrite Z.add_0_r, Z.mod_small by exact Hc. rewrite Nat.add_0_r. reflexivity.
  - simpl churn. rewrite !run_cons. simpl. unfold Off. simpl.
    rewrite erase_first_mm_insert.
    + set (c' := ((c + 1) mod UINT_MOD)%Z).
      assert (Hc' : (0 <= c' < UINT_MOD)%Z) by (apply Z.mod_pos_bound; exact Hpos).
      rewrite IH.
      * f_equal; [|lia]. f_equal. unfold c'.
        rewrite Z.add_mod_idemp_l by lia. f_equal. lia.
      * exact Hc'.
      * intros j Hj. unfold c'. rewrite Z.add_mod_idemp_l by lia.
        replace (c + 1 + j)%Z with (c + (j + 1))%Z by lia. apply HR. lia.
    + simpl. apply Z.eqb_refl.
    + specialize (HR 1%Z ltac:(lia)). apply List.Forall_forall.
      rewrite List.Forall_forall in HR. intros kv Hkv. apply Z.eqb_neq, HR, Hkv.
Qed.

Lemma wrap_reached :
  run init wrap_ops = mkSys (mkEmitter 0 [(0%Z, wrap_X)] []) (S wrap_count) [].
Proof.
  unfold wrap_ops. rewrite run_cons.
  change (snd (exec_op init (OpOn 0 0 0 Immediate)))
    with (mkSys (mkEmitter 1 [(0%Z, wrap_X)] []) 1 []).
  assert (HN : Z.of_nat wrap_count = (UINT_MOD - 1)%Z).
  { unfold wrap_count. pose proof UINT_MOD_pos. rewrite Z2Nat.id by lia. reflexivity. }
  rewrite run_churn.
  - rewrite HN. replace (1 + (UINT_MOD - 1))%Z with UINT_MOD by lia.
    rewrite Z.mod_same by (pose proof UINT_MOD_pos; lia). reflexivity.
  - unfold UINT_MOD, uint_bits. lia.
  - intros j Hj. rewrite HN in Hj. constructor; [|constructor]. simpl.
    pose proof UINT_MOD_pos.
    destruct (Z.eq_dec j (UINT_MOD - 1)%Z) as [->|Hne].
    + replace (1 + (UINT_MOD - 1))%Z with UINT_MOD by lia.
      rewrite Z.mod_same by lia. discriminate.
    + rewrite Z.mod_small by lia. lia.
Qed.

(** Registering Y after the wrap issues id 1 again: two live records share it. *)
Lemma wrap_duplicate :
  run init (wrap_ops ++ [OpOn 0 0 1 Immediate])
  = mkSys (mkEmitter 1 [(0%Z, wrap_X); (0%Z, wrap_Y)] []) (S (S wrap_count)) [].
Proof. rewrite run_app, wrap_reached. reflexivity. Qed.

Lemma erase_first_count_le1 f (l : list (EventId * shared_ptr)) :
  (length (List.filter (fun kv => f (snd kv)) l) <= 1)%nat ->
  Forall (fun kv => f (snd kv) = false) (erase_first f l).
Proof.
  induction l as [|[k v] l IH]; intros H; simpl in *; [constructor|].
  destruct (f v) eqn:Hv; simpl in H.
  - apply List.Forall_forall. intros kv Hkv. destruct (f (snd kv)) eqn:Hf; [|reflexivity].
    assert (Hin : In kv (List.filter (fun kv => f (snd kv)) l)) by (apply filter_In; tauto).
    destruct (List.filter (fun kv => f (snd kv)) l); [contradiction|simpl in H; lia].
  - constructor; [exact Hv|apply IH, H].
Qed.

(** C6 (amended): [Off] of an id that names no registered record leaves
    the emitter unchanged (and returns normally: [Off] is total); a second
    [Off] with the same id is harmless whenever at most one registered
    record carried that id. *)
Theorem Off_unknown_noop_and_idempotent :
  (forall (s : Sys) (lid : ListenerId),
     Forall (fun kv => listenerId (obj (snd kv)) <> lid) (reg s) -> Off s lid = s) /\
  (forall (s : Sys) (lid : ListenerId),
     (count_id lid (reg s) <= 1)%nat -> Off (Off s lid) lid = Off s lid).
Proof.
  split.
  - intros [[c R q] h tr] lid H. unfold Off, reg in *. simpl in *.
    rewrite erase_first_none; [reflexivity|].
    apply List.Forall_forall. rewrite List.Forall_forall in H.
    intros kv Hkv. apply Z.eqb_neq, H, Hkv.
  - intros [[c R q] h tr] lid H. unfold Off, reg, count_id in *. simpl in *.
    rewrite (erase_first_none _ (erase_first _ R)); [reflexivity|].
    exact (erase_first_count_le1 (has_id lid) R H).
Qed.

Lemma dispatch_all_erase s t args ps :
  exists fs, reg (dispatch_all s t args ps) = erase_all fs (reg s).
Proof.
  revert s. induction ps as [|p ps IH]; intros s; simpl.
  - exists []. reflexivity.
  - destruct (raises s args p); [exists []; reflexivity|].
    destruct (IH (dispatch s t args p)) as [fs Hfs]. rewrite Hfs.
    unfold dispatch, reg at 2. destruct (eventType (obj p)); simpl;
      destruct (once (obj p)); simpl.
    all: first [exists ((fun p' => Nat.eqb (addr p') (addr p)) :: fs); reflexivity
               | exists fs; reflexivity].
Qed.

Lemma exec_op_nonreg_erase s o :
  is_registration o = false -> exists fs, reg (snd (exec_op s o)) = erase_all fs (reg s).
Proof.
  destruct o as [t e cb ty|t e cb ty|lid|t e args|t]; simpl; intros H; try discriminate.
  - exists [fun p => Z.eqb (listenerId (obj p)) lid]. reflexivity.
  - apply dispatch_all_erase.
  - exists []. reflexivity.
Qed.

Lemma erase_first_nodup f (l : list (EventId * shared_ptr)) :
  List.NoDup (reg_ids l) -> List.NoDup (reg_ids (erase_first f l)).
Proof.
  induction l as [|[k v] l IH]; intros H; simpl; [exact H|].
  unfold reg_ids in *. simpl in H. inversion H as [|? ? Hnot Hl]; subst.
  destruct (f v); [exact Hl|]. simpl. constructor; [|apply IH, Hl].
  intros Hin. apply Hnot. apply in_map_iff in Hin as (kv & Heq & Hkv).
  apply in_map_iff. exists kv. split; [exact Heq|apply (erase_first_incl f), Hkv].
Qed.

Lemma erase_all_props fs l :
  (forall x, In x (erase_all fs l) -> In x l) /\
  (List.NoDup (reg_ids l) -> List.NoDup (reg_ids (erase_all fs l))).
Proof.
  revert l. induction fs as [|f fs IH]; intros l; simpl; [split; auto|].
  destruct (IH (erase_first f l)) as [H1 H2]. split.
  - intros x Hx. apply (erase_first_incl f), H1, Hx.
  - intros H. apply H2, erase_first_nodup, H.
Qed.

Lemma mm_insert_ids k v l :
  Permutation (reg_ids (mm_insert k v l)) (listenerId (obj v) :: reg_ids l).
Proof.
  unfold reg_ids. induction l as [|[k' v'] l IH]; simpl; [reflexivity|].
  destruct (k <? k')%Z; simpl; [reflexivity|].
  rewrite IH. apply perm_swap.
Qed.

Lemma nregs_cons o os :
  nregs (o :: os) = ((if is_registration o then 1 else 0) + nregs os)%nat.
Proof. unfold nregs. simpl. destruct (is_registration o); reflexivity. Qed.

Lemma exec_op_ids_ok s o lid p :
  ids_ok s ->
  (counter s + (if is_registration o then 1 else 0) < UINT_MOD)%Z ->
  ids_ok (snd (exec_op s o)) /\
  counter (snd (exec_op s o)) = (counter s + if is_registration o then 1 else 0)%Z /\
  ((lid <= counter s)%Z -> only_p lid p s -> only_p lid p (snd (exec_op s o))) /\
  (heap s <= heap (snd (exec_op s o)))%nat.
Proof.
  intros (Hc & Hle & Hnd) Hlt.
  destruct (exec_op_reg s o) as [Hn Hr].
  destruct (is_registration o) eqn:Ho.
  - destruct (Hr eq_refl) as (e & p' & Hreg & Haddr & Hid & Hheap & Hcnt).
    rewrite Z.mod_small in Hid, Hcnt by lia.
    unfold ids_ok, only_p. rewrite Hreg, Hcnt, Hheap.
    split; [split; [lia|split]|split; [reflexivity|split; [|lia]]].
    + apply List.Forall_forall. intros kv Hkv. apply mm_insert_perm in Hkv.
      destruct Hkv as [<-|Hkv]; simpl; [lia|].
      rewrite List.Forall_forall in Hle. specialize (Hle kv Hkv). lia.
    + eapply Permutation_NoDup; [symmetry; apply mm_insert_ids|].
      constructor; [|exact Hnd]. rewrite Hid. intros Hin.
      unfold reg_ids in Hin. apply in_map_iff in Hin as (kv & Heq & Hkv).
      rewrite List.Forall_forall in Hle. specialize (Hle kv Hkv). lia.
    + intros Hl Honly kv Hkv Hkid. apply mm_insert_perm in Hkv.
      destruct Hkv as [<-|Hkv]; [simpl in Hkid; lia|].
      apply Honly; assumption.
  - destruct (Hn eq_refl) as (Hincl & Hheap & Hcnt).
    destruct (exec_op_nonreg_erase s o Ho) as [fs Hfs].
    destruct (erase_all_props fs (reg s)) as [Hsub Hnd'].
    unfold ids_ok, only_p. rewrite Hcnt, Hheap, Z.add_0_r.
    split; [split; [lia|split]|split; [reflexivity|split; [|lia]]].
    + apply List.Forall_forall. intros kv Hkv. apply Hincl in Hkv.
      rewrite List.Forall_forall in Hle. apply Hle, Hkv.
    + rewrite Hfs. apply Hnd', Hnd.
    + intros _ Honly kv Hkv. apply Honly, Hincl, Hkv.
Qed.

Lemma run_ids_ok os : forall s lid p,
  ids_ok s -> (counter s + Z.of_nat (nregs os) < UINT_MOD)%Z ->
  ids_ok (run s os) /\
  counter (run s os) = (counter s + Z.of_nat (nregs os))%Z /\
  ((lid <= counter s)%Z -> only_p lid p s -> only_p lid p (run s os)) /\
  (heap s <= heap (run s os))%nat.
Proof.
  induction os as [|o os IH]; intros s lid p Hok Hlt.
  - rewrite run_nil. unfold nregs. simpl. rewrite Z.add_0_r. split; [exact Hok|split; [reflexivity|split; [tauto|lia]]].
  - rewrite nregs_cons in Hlt. rewrite run_cons, nregs_cons.
    destruct (exec_op_ids_ok s o lid p Hok) as (Hok1 & Hc1 & Ho1 & Hh1).
    { destruct (is_registration o); lia. }
    destruct (IH (snd (exec_op s o)) lid p Hok1) as (Hok2 & Hc2 & Ho2 & Hh2).
    { rewrite Hc1. destruct (is_registration o); lia. }
    split; [exact Hok2|split; [|split; [|lia]]].
    + rewrite Hc2, Hc1. destruct (is_registration o); lia.
    + intros Hl Honly. apply Ho2; [rewrite Hc1; destruct (is_registration o); lia|].
      apply Ho1; assumption.
Qed.

(** Once a record is out of the registry, no later [Emit] logs anything
    for it: new records are allocated at fresh addresses. *)
Lemma run_without_p os : forall s p,
  ~ In p (map snd (reg s)) -> (addr p < heap s)%nat ->
  exists l, trace (run s os) = trace s ++ l /\
    forall ev, In ev l -> ~ emitted_for p ev.
Proof.
  induction os as [|o os IH]; intros s p Hnot Hlt.
  - exists []. rewrite run_nil, app_nil_r. split; [reflexivity|intros ev []].
  - rewrite run_cons.
    destruct (exec_op_events s o) as (l1 & Hl1 & Hev1).
    assert (Hnot1 : ~ In p (map snd (reg (snd (exec_op s o))))
                    /\ (addr p < heap (snd (exec_op s o)))%nat).
    { destruct (exec_op_reg s o) as [Hn Hr].
      destruct (is_registration o) eqn:Ho.
      - destruct (Hr eq_refl) as (e & p' & Hreg & Haddr & _ & Hheap & _).
        rewrite Hreg, Hheap. split; [|lia].
        intros Hin. apply in_map_iff in Hin as (kv & Hkv & Hin).
        apply mm_insert_perm in Hin as [<-|Hin].
        + simpl in Hkv. subst p'. lia.
        + apply Hnot, in_map_iff. exists kv. split; assumption.
      - destruct (Hn eq_refl) as (Hincl & Hheap & _). rewrite Hheap.
        split; [|exact Hlt]. intros Hin. apply in_map_iff in Hin as (kv & Hkv & Hin).
        apply Hnot, in_map_iff. exists kv. split; [exact Hkv|apply Hincl, Hin]. }
    destruct Hnot1 as [Hnot1 Hlt1].
    destruct (IH _ p Hnot1 Hlt1) as (l2 & Hl2 & Hev2).
    exists (l1 ++ l2). rewrite Hl2, Hl1, app_assoc. split; [reflexivity|].
    intros ev Hev Hp. apply in_app_or in Hev as [Hev|Hev].
    + apply Hnot, (Hev1 ev p Hev Hp).
    + apply (Hev2 ev Hev Hp).
Qed.

Lemma nodup_count_le1 lid (l : list (EventId * shared_ptr)) :
  List.NoDup (reg_ids l) -> (count_id lid l <= 1)%nat.
Proof.
  unfold count_id, reg_ids. induction l as [|[k v] l IH]; intros H; simpl; [lia|].
  inversion H as [|? ? Hnot Hl]; subst. unfold has_id at 1. simpl.
  destruct (listenerId (obj v) =? lid)%Z eqn:Hv; simpl; [|apply IH, Hl].
  apply Z.eqb_eq in Hv. subst lid.
  destruct (List.filter (fun kv => has_id (listenerId (obj v)) (snd kv)) l) as [|kv r] eqn:Hf;
    simpl; [lia|].
  exfalso. apply Hnot. assert (Hin : In kv (List.filter (fun kv => has_id (listenerId (obj v)) (snd kv)) l))
    by (rewrite Hf; left; reflexivity).
  apply filter_In in Hin as [Hin Hid]. unfold has_id in Hid. apply Z.eqb_eq in Hid.
  apply in_map_iff. exists kv. split; [exact Hid|exact Hin].
Qed.

Lemma ids_ok_init : ids_ok init.
Proof. split; [reflexivity|split; constructor]. Qed.

(** C3 (amended): while the counter has not wrapped (fewer than 2^32
    registrations up to the [Off]), after [Off lid] no later [Emit], in any
    mode, runs, launches or enqueues the record registered under [lid]. *)
Theorem Off_silences_listener_before_wrap
    (os0 : list Op) (t : ThreadId) (e : EventId) (cb : Callback) (isOnce : bool)
    (ty : EventType) (os_mid os_after : list Op) :
  (Z.of_nat (nregs os0 + 1 + nregs os_mid) < UINT_MOD)%Z ->
  let s0 := run init os0 in
  let lid := fst (AddEventListener s0 t e cb isOnce ty) in
  let p := mkPtr (heap s0) (mkListener lid isOnce ty t cb) in
  let s2 := Off (run (snd (AddEventListener s0 t e cb isOnce ty)) os_mid) lid in
  forall ev, In ev (new_events s2 (run s2 os_after)) -> ~ emitted_for p ev.
Proof.
  intros Hlt s0 lid p s2.
  destruct (run_ids_ok os0 init 0 p ids_ok_init) as (Hok0 & Hc0 & _ & _).
  { rewrite counter_init. lia. }
  rewrite counter_init, Z.add_0_l in Hc0. fold s0 in Hok0, Hc0.
  set (o1 := if isOnce then OpOnce t e cb ty else OpOn t e cb ty).
  assert (Hs1 : snd (AddEventListener s0 t e cb isOnce ty) = snd (exec_op s0 o1))
    by (unfold o1; destruct isOnce; reflexivity).
  assert (Hreg1 : is_registration o1 = true) by (unfold o1; destruct isOnce; reflexivity).
  destruct (exec_op_ids_ok s0 o1 lid p Hok0) as (Hok1 & Hc1 & _ & _).
  { rewrite Hreg1, Hc0. lia. }
  rewrite Hreg1 in Hc1. rewrite <- Hs1 in Hok1, Hc1.
  destruct (run_ids_ok os_mid (snd (AddEventListener s0 t e cb isOnce ty)) lid p Hok1)
    as ((_ & _ & Hnd) & _ & _ & Hh).
  { rewrite Hc1, Hc0. lia. }
  assert (Hnot : ~ In p (map snd (reg s2))).
  { intros Hin. apply in_map_iff in Hin as (kv & Hkv & Hin).
    pose proof (erase_first_count_le1 (has_id lid) _ (nodup_count_le1 lid _ Hnd)) as Hf.
    rewrite List.Forall_forall in Hf. specialize (Hf kv Hin).
    rewrite Hkv in Hf. unfold has_id, p in Hf. simpl in Hf.
    rewrite Z.eqb_refl in Hf. discriminate. }
  assert (Haddr : (addr p < heap s2)%nat).
  { unfold s2, Off. simpl. simpl in Hh. unfold p. simpl. lia. }
  destruct (run_without_p os_after s2 p Hnot Haddr) as (l & Hl & Hev).
  rewrite (new_events_app _ _ _ Hl). exact Hev.
Qed.





Lemma erase_first_keep f (l : list (EventId * shared_ptr)) x :
  In x l -> f (snd x) = false -> In x (erase_first f l).
Proof.
  induction l as [|[k v] l IH]; intros Hin Hf; simpl; [exact Hin|].
  destruct Hin as [<-|Hin].
  - simpl in Hf. rewrite Hf. left. reflexivity.
  - destruct (f v); [exact Hin|right; apply IH; assumption].
Qed.




Lemma in_equal_range q k (l : list (EventId * shared_ptr)) :
  In q (equal_range k l) -> In q (map snd l).
Proof.
  unfold equal_range. intros H. apply in_map_iff in H as (kv & <- & H).
  apply filter_In in H as [H _]. apply in_map, H.
Qed.


Lemma dispatch_shape s t args q p :
  exists ev newq,
    trace (dispatch s t args q) = trace s ++ [ev] /\
    m_pending (em (dispatch s t args q)) = m_pending (em s) ++ newq /\
    reg (dispatch s t args q) =
      (if once (obj q) then erase_first (same_addr (addr q)) (reg s) else reg s) /\
    heap (dispatch s t args q) = heap s /\
    (cnt (fired_by_emit p) [ev] + cnt (enqueued_of p) [ev])%nat
      = (if bool_decide (q = p) then 1 else 0)%nat /\
    cnt (drained_of p) [ev] = 0%nat /\
    cnt (enqueued_of p) [ev] = cnt (pending_of p) newq /\
    Forall (fun x => q_ptr x = q) newq.
Proof.
  unfold dispatch.
  destruct (eventType (obj q)); simpl.
  - exists (Called t q args), []. rewrite app_nil_r.
    repeat split; try reflexivity; [|constructor].
    unfold cnt. simpl. destruct (bool_decide (q = p)); reflexivity.
  - exists (Enqueued (threadId (obj q)) q args), [mkPending (threadId (obj q)) q args].
    repeat split; try reflexivity; [| |repeat constructor].
    + unfold cnt. simpl. destruct (bool_decide (q = p)); reflexivity.
    + unfold cnt, pending_of. simpl. destruct (bool_decide (q = p)); reflexivity.
  - exists (Launched q args), []. rewrite app_nil_r.
    repeat split; try reflexivity; [|constructor].
    unfold cnt. simpl. destruct (bool_decide (q = p)); reflexivity.
Qed.

Section OnceListener.

Variable p : shared_ptr.

Hypothesis p_once : once (obj p) = true.








(** The callback of [p] returns whenever [Emit] calls it. *)
Hypothesis p_returns : forall s args, raises s args p = false.



End OnceListener.

Lemma Forall_erase_first (P : EventId * shared_ptr -> Prop) f l :
  Forall P l -> Forall P (erase_first f l).
Proof.
  rewrite !List.Forall_forall. intros H x Hx. apply H, (erase_first_incl _ _ _ Hx).
Qed.

Lemma Forall_lt_S {A} (g : A -> nat) n l :
  Forall (fun x => (g x < n)%nat) l -> Forall (fun x => (g x < S n)%nat) l.
Proof. intros H. eapply List.Forall_impl; [|exact H]. intros x Hx. simpl in *. lia. Qed.

Lemma dispatch_addrs s t args q :
  addrs_ok s -> (addr q < heap s)%nat -> addrs_ok (dispatch s t args q).
Proof.
  unfold addrs_ok, dispatch, reg. intros (H1 & H2 & H3) Hq.
  destruct (eventType (obj q)); simpl;
    (split; [destruct (once (obj q)); [apply Forall_erase_first|]; exact H1|]);
    (split; [try (apply List.Forall_app; split; [exact H2|repeat constructor; exact Hq]); exact H2|]);
    apply List.Forall_app; split; [exact H3| |exact H3| |exact H3|];
    repeat constructor; exact Hq.
Qed.

Lemma invoke_raising_addrs s t args q :
  addrs_ok s -> (addr q < heap s)%nat -> addrs_ok (invoke_raising s t args q).
Proof.
  unfold addrs_ok, invoke_raising, reg. intros (H1 & H2 & H3) Hq. simpl.
  split; [exact H1|split; [exact H2|]].
  apply List.Forall_app. split; [exact H3|repeat constructor; exact Hq].
Qed.

Lemma dispatch_all_addrs ps : forall s t args,
  addrs_ok s -> Forall (fun q => (addr q < heap s)%nat) ps ->
  addrs_ok (dispatch_all s t args ps).
Proof.
  induction ps as [|q ps IH]; intros s t args Hs Hps; simpl; [exact Hs|].
  inversion Hps as [|? ? Hq Hps']; subst.
  destruct (raises s args q); [apply invoke_raising_addrs; assumption|].
  apply IH; [apply dispatch_addrs; assumption|].
  destruct (dispatch_reg s t args q) as (_ & Hh & _). rewrite Hh. exact Hps'.
Qed.

Lemma exec_op_addrs s o : addrs_ok s -> addrs_ok (snd (exec_op s o)).
Proof.
  intros Hs. pose proof Hs as (H1 & H2 & H3). unfold addrs_ok, reg in *.
  destruct o as [t e cb ty|t e cb ty|lid|t e args|t]; simpl.
  - unfold On, AddEventListener. simpl.
    split; [|split; apply Forall_lt_S; assumption].
    apply List.Forall_forall. intros x Hx. apply mm_insert_perm in Hx as [<-|Hx]; [simpl; lia|].
    rewrite List.Forall_forall in H1. specialize (H1 x Hx). lia.
  - unfold Once, AddEventListener. simpl.
    split; [|split; apply Forall_lt_S; assumption].
    apply List.Forall_forall. intros x Hx. apply mm_insert_perm in Hx as [<-|Hx]; [simpl; lia|].
    rewrite List.Forall_forall in H1. specialize (H1 x Hx). lia.
  - unfold Off. simpl. split; [apply Forall_erase_first, H1|split; assumption].
  - unfold Emit. apply dispatch_all_addrs; [exact Hs|].
    apply List.Forall_forall. intros q Hq. apply (in_equal_range _ e) in Hq.
    apply in_map_iff in Hq as (kv & <- & Hkv).
    rewrite List.Forall_forall in H1. apply H1, Hkv.
  - unfold ProcessEvents. simpl. split; [exact H1|split].
    + apply List.Forall_forall. intros q Hq. apply filter_In in Hq as [Hq _].
      rewrite List.Forall_forall in H2. apply H2, Hq.
    + apply List.Forall_app. split; [exact H3|]. apply List.Forall_map.
      apply List.Forall_forall. intros q Hq. apply filter_In in Hq as [Hq _].
      rewrite List.Forall_forall in H2. apply H2, Hq.
Qed.

Lemma run_addrs os : forall s, addrs_ok s -> addrs_ok (run s os).
Proof.
  induction os as [|o os IH]; intros s H.
  - rewrite run_nil. exact H.
  - rewrite run_cons. apply IH, exec_op_addrs, H.
Qed.

Lemma addrs_init os : addrs_ok (run init os).
Proof. apply run_addrs. repeat split; constructor. Qed.

















Lemma enqueued_to_app b l1 l2 : enqueued_to b (l1 ++ l2) = enqueued_to b l1 ++ enqueued_to b l2.
Proof.
  induction l1 as [|ev l1 IH]; [reflexivity|].
  destruct ev; simpl; rewrite ?IH; try reflexivity.
  destruct (Nat.eqb owner b); reflexivity.
Qed.

Lemma drained_on_app b l1 l2 : drained_on b (l1 ++ l2) = drained_on b l1 ++ drained_on b l2.
Proof.
  induction l1 as [|ev l1 IH]; [reflexivity|].
  destruct ev; simpl; rewrite ?IH; try reflexivity.
  destruct (Nat.eqb t b); reflexivity.
Qed.

Lemma pending_on_app b l1 l2 : pending_on b (l1 ++ l2) = pending_on b l1 ++ pending_on b l2.
Proof. unfold pending_on. rewrite List.filter_app, map_app. reflexivity. Qed.

Lemma drained_on_map t b (l : list Pending) :
  drained_on b (map (fun q => Drained t (q_ptr q) (q_args q)) l) =
  if Nat.eqb t b then map (fun q => (q_ptr q, q_args q)) l else [].
Proof.
  induction l as [|q l IH]; simpl; [destruct (Nat.eqb t b); reflexivity|].
  rewrite IH. destruct (Nat.eqb t b); reflexivity.
Qed.

Lemma enqueued_to_map t b (l : list Pending) :
  enqueued_to b (map (fun q => Drained t (q_ptr q) (q_args q)) l) = [].
Proof. induction l as [|q l IH]; [reflexivity|exact IH]. Qed.

Lemma pending_on_process t b (l : list Pending) :
  (if Nat.eqb t b
   then map (fun q => (q_ptr q, q_args q)) (List.filter (fun q => Nat.eqb (q_thread q) t) l)
   else []) ++ pending_on b (List.filter (fun q => negb (Nat.eqb (q_thread q) t)) l)
  = pending_on b l.
Proof.
  unfold pending_on. destruct (Nat.eqb t b) eqn:Htb.
  - apply Nat.eqb_eq in Htb. subst b. induction l as [|q l IH]; [reflexivity|].
    simpl. destruct (Nat.eqb (q_thread q) t) eqn:E; simpl; rewrite ?E; simpl;
      [f_equal; exact IH|exact IH].
  - apply Nat.eqb_neq in Htb. simpl. induction l as [|q l IH]; [reflexivity|].
    simpl. destruct (Nat.eqb (q_thread q) t) eqn:Hqt; simpl.
    + apply Nat.eqb_eq in Hqt. subst t.
      replace (Nat.eqb (q_thread q) b) with false by (symmetry; apply Nat.eqb_neq; exact Htb).
      exact IH.
    + destruct (Nat.eqb (q_thread q) b); simpl; [f_equal|]; exact IH.
Qed.

Lemma dispatch_tl_inv s t args q : tl_inv s -> tl_inv (dispatch s t args q).
Proof.
  unfold tl_inv, dispatch. intros (H1 & H2 & H3).
  destruct (eventType (obj q)) eqn:Ety; simpl.
  - split; [apply List.Forall_app; split; [exact H1|repeat constructor]|split; [exact H2|]].
    + unfold tl_delivery_ok. simpl. rewrite Ety. discriminate.
    + intros b. specialize (H3 b). rewrite drained_on_app, enqueued_to_app. simpl.
      rewrite !app_nil_r. exact H3.
  - split; [apply List.Forall_app; split;
             [exact H1|constructor; [intros _; reflexivity|constructor]]|split].
    + apply List.Forall_app. split; [exact H2|repeat constructor; exact Ety].
    + intros b. specialize (H3 b).
      rewrite drained_on_app, enqueued_to_app, pending_on_app, <- H3. simpl.
      rewrite app_nil_r, <- app_assoc. f_equal. unfold pending_on. simpl.
      destruct (Nat.eqb (threadId (obj q)) b); reflexivity.
  - split; [apply List.Forall_app; split; [exact H1|repeat constructor]|split; [exact H2|]].
    + unfold tl_delivery_ok. simpl. rewrite Ety. discriminate.
    + intros b. specialize (H3 b). rewrite drained_on_app, enqueued_to_app. simpl.
      rewrite !app_nil_r. exact H3.
Qed.

Lemma invoke_raising_tl_inv s t args q :
  raises s args q = true -> tl_inv s -> tl_inv (invoke_raising s t args q).
Proof.
  unfold tl_inv, invoke_raising, raises. intros Hr (H1 & H2 & H3). simpl.
  split; [apply List.Forall_app; split; [exact H1|repeat constructor]|split; [exact H2|]].
  - unfold tl_delivery_ok. simpl. intros Ety. rewrite Ety in Hr. discriminate.
  - intros b. specialize (H3 b). rewrite drained_on_app, enqueued_to_app. simpl.
    rewrite !app_nil_r. exact H3.
Qed.

Lemma dispatch_all_tl_inv ps : forall s t args, tl_inv s -> tl_inv (dispatch_all s t args ps).
Proof.
  intros s t args H. revert ps s H. apply dispatch_all_preserves.
  - intros s' q H _. apply dispatch_tl_inv, H.
  - intros s' q H Hr. apply invoke_raising_tl_inv; assumption.
Qed.

Lemma exec_op_tl_inv s o : tl_inv s -> tl_inv (snd (exec_op s o)).
Proof.
  intros H. destruct o as [t e cb ty|t e cb ty|lid|t e args|t]; simpl.
  - exact H.
  - exact H.
  - exact H.
  - apply dispatch_all_tl_inv, H.
  - destruct H as (H1 & H2 & H3). unfold tl_inv, ProcessEvents. simpl.
    split; [|split].
    + apply List.Forall_app. split; [exact H1|]. apply List.Forall_map.
      apply List.Forall_forall. intros q Hq. apply filter_In in Hq as [Hq Ht].
      rewrite List.Forall_forall in H2. destruct (H2 q Hq) as [Hown _].
      intros _. simpl. apply Nat.eqb_eq in Ht. rewrite <- Ht. exact Hown.
    + apply List.Forall_forall. intros q Hq. apply filter_In in Hq as [Hq _].
      rewrite List.Forall_forall in H2. apply H2, Hq.
    + intros b. rewrite drained_on_app, enqueued_to_app, enqueued_to_map, app_nil_r,
        drained_on_map, <- H3, <- app_assoc. f_equal.
      apply pending_on_process.
Qed.

Lemma tl_inv_init : tl_inv init.
Proof. split; [constructor|split; [constructor|intros b; reflexivity]]. Qed.

Lemma run_tl_inv os : forall s, tl_inv s -> tl_inv (run s os).
Proof.
  induction os as [|o os IH]; intros s H.
  - rewrite run_nil. exact H.
  - rewrite run_cons. apply IH, exec_op_tl_inv, H.
Qed.

Lemma dispatch_all_drained_on b ps : forall s t args,
  drained_on b (trace (dispatch_all s t args ps)) = drained_on b (trace s).
Proof.
  intros s t args. apply (dispatch_all_preserves
    (fun s' => drained_on b (trace s') = drained_on b (trace s))); [| |reflexivity].
  - intros s' q H _. rewrite dispatch_event_ptr, drained_on_app, <- H.
    destruct (eventType (obj q)); simpl; apply app_nil_r.
  - intros s' q H _. unfold invoke_raising. simpl. rewrite drained_on_app, <- H.
    apply app_nil_r.
Qed.

(** Only [ProcessEvents] called by [b] runs queued invocations on [b]. *)
Lemma exec_op_drained_on s o b :
  match o with OpProcessEvents t => t <> b | _ => True end ->
  drained_on b (trace (snd (exec_op s o))) = drained_on b (trace s).
Proof.
  destruct o as [t e cb ty|t e cb ty|lid|t e args|t]; simpl; intros H;
    try reflexivity.
  - apply dispatch_all_drained_on.
  - rewrite drained_on_app, drained_on_map.
    replace (Nat.eqb t b) with false by (symmetry; apply Nat.eqb_neq; exact H).
    apply app_nil_r.
Qed.

(** C4: along every run, an event about a ThreadLocal record is never a
    synchronous call or a launch on the emitting thread; it only queues the
    invocation for, or runs it on, the owning thread; the invocations run on
    a thread [b] are, in order, a prefix of those queued for [b], the rest
    still waiting in its queue in the same order; and no operation other
    than [ProcessEvents] called by [b] runs anything on [b]. *)
Theorem ThreadLocal_runs_on_owner_in_enqueue_order (os : list Op) (b : ThreadId) :
  Forall tl_delivery_ok (trace (run init os)) /\
  drained_on b (trace (run init os)) ++ pending_on b (m_pending (em (run init os)))
    = enqueued_to b (trace (run init os)) /\
  (forall s o, match o with OpProcessEvents t => t <> b | _ => True end ->
     drained_on b (trace (snd (exec_op s o))) = drained_on b (trace s)).
Proof.
  pose proof (run_tl_inv os init tl_inv_init) as Hinv.
  unfold tl_inv in Hinv. destruct Hinv as (H1 & _ & H3).
  split; [exact H1|split; [apply H3|]].
  intros s o. apply exec_op_drained_on.
Qed.

Lemma world_op_other w i j o :
  i <> j -> w_emitters (world_op w i o) !! j = w_emitters w !! j.
Proof.
  intros Hij. unfold world_op. destruct (w_emitters w !! i); [|reflexivity].
  simpl. apply lookup_insert_ne, Hij.
Qed.

(** C8: calls on other emitter objects leave an emitter's members, its
    registry and its id counter included, unchanged. *)
Theorem Emitters_independent (w : World) (ops : list (nat * Op)) (j : nat) :
  Forall (fun io => fst io <> j) ops ->
  w_emitters (world_run w ops) !! j = w_emitters w !! j.
Proof.
  revert w. induction ops as [|[i o] ops IH]; intros w H; [reflexivity|].
  inversion H as [|? ? Hi Hops]; subst. simpl in Hi. simpl.
  rewrite IH by exact Hops. apply world_op_other, Hi.
Qed.

(** ** Further properties of the emitter *)

(** X1: the registry of every reachable emitter is ordered by event id, as
    a [std::multimap] keeps it. *)
Theorem registry_ordered_by_event (os : list Op) :
  StronglySorted (fun a b => (fst a <= fst b)%Z) (m_registry (em (run init os))).
Proof. apply (reachable_sorted os). Qed.

(** X2: registering under [e] appends the new record at the end of [e]'s
    bucket and leaves every other event id's bucket as it was. *)
Theorem AddEventListener_appends_to_bucket (os : list Op) (t : ThreadId)
    (e : EventId) (cb : Callback) (isOnce : bool) (ty : EventType) :
  let s := run init os in
  let r := AddEventListener s t e cb isOnce ty in
  equal_range e (m_registry (em (snd r))) =
    equal_range e (m_registry (em s)) ++ [mkPtr (heap s) (mkListener (fst r) isOnce ty t cb)] /\
  (forall e', e' <> e ->
     equal_range e' (m_registry (em (snd r))) = equal_range e' (m_registry (em s))).
Proof.
  intros s r. unfold r, AddEventListener. simpl. split.
  - apply equal_range_mm_insert_same, (reachable_sorted os).
  - intros e' Hne. apply equal_range_mm_insert_other. intros ->. apply Hne. reflexivity.
Qed.

(** X3: while the counter has not wrapped, [Off] with the id just returned by
    [On] or [Once] gives back the registry as it was before the call. *)
Theorem AddEventListener_Off_roundtrip (os : list Op) (t : ThreadId)
    (e : EventId) (cb : Callback) (isOnce : bool) (ty : EventType) :
  (Z.of_nat (nregs os) + 1 < UINT_MOD)%Z ->
  m_registry (em (Off (snd (AddEventListener (run init os) t e cb isOnce ty))
                      (fst (AddEventListener (run init os) t e cb isOnce ty))))
  = m_registry (em (run init os)).
Proof.
  intros Hlt.
  destruct (run_ids_ok os init 0%Z (mkPtr 0 (mkListener 0 false Immediate 0 0)) ids_ok_init)
    as ((_ & Hle & _) & Hc & _ & _).
  { rewrite counter_init. lia. }
  rewrite counter_init, Z.add_0_l in Hc. unfold counter, reg in *.
  unfold Off, AddEventListener. simpl.
  rewrite Hc. rewrite (Z.mod_small (Z.of_nat (nregs os) + 1)) by lia.
  apply erase_first_mm_insert; simpl; [apply Z.eqb_refl|].
  eapply List.Forall_impl; [|exact Hle]. intros kv Hkv. cbv beta in Hkv. rewrite Hc in Hkv.
  apply Z.eqb_neq. lia.
Qed.

Lemma obj_addrs_mm_insert k v l :
  Permutation (obj_addrs (mm_insert k v l)) (addr v :: obj_addrs l).
Proof.
  unfold obj_addrs. induction l as [|[k' v'] l IH]; simpl; [reflexivity|].
  destruct (k <? k')%Z; simpl; [reflexivity|].
  rewrite IH. apply perm_swap.
Qed.

Lemma in_obj_addrs x l : In x (obj_addrs l) -> exists kv, In kv l /\ addr (snd kv) = x.
Proof.
  unfold obj_addrs. intros H. apply in_map_iff in H as (kv & <- & H). exists kv. split; auto.
Qed.

Lemma in_obj_addrs_intro kv l : In kv l -> In (addr (snd kv)) (obj_addrs l).
Proof. intros H. unfold obj_addrs. apply (in_map (fun kv => addr (snd kv))), H. Qed.

Lemma nodup_erase_first f l :
  List.NoDup (obj_addrs l) -> List.NoDup (obj_addrs (erase_first f l)).
Proof.
  induction l as [|[k v] l IH]; intros H; simpl; [exact H|].
  inversion H as [|? ? Hni Hnd]; subst.
  destruct (f v); [exact Hnd|]. simpl. constructor; [|apply IH, Hnd].
  intros Hin. apply in_obj_addrs in Hin as (kv & Hkv & Ha).
  apply Hni. rewrite <- Ha. apply in_obj_addrs_intro, (erase_first_incl _ _ _ Hkv).
Qed.

Lemma nodup_filter_addrs f l :
  List.NoDup (obj_addrs l) -> List.NoDup (obj_addrs (List.filter f l)).
Proof.
  induction l as [|kv l IH]; intros H; simpl; [exact H|].
  inversion H as [|? ? Hni Hnd]; subst.
  destruct (f kv); [|apply IH, Hnd]. simpl. constructor; [|apply IH, Hnd].
  intros Hin. apply in_obj_addrs in Hin as (kv' & Hkv' & Ha).
  apply filter_In in Hkv' as [Hkv' _]. apply Hni. rewrite <- Ha. apply in_obj_addrs_intro, Hkv'.
Qed.

Lemma dispatch_all_nodup ps : forall s t args,
  List.NoDup (obj_addrs (reg s)) -> List.NoDup (obj_addrs (reg (dispatch_all s t args ps))).
Proof.
  intros s t args H. revert H.
  apply (dispatch_all_preserves (fun s' => List.NoDup (obj_addrs (reg s')))).
  - intros s' q H _. destruct (dispatch_shape s' t args q q) as (ev & newq & _ & _ & Hr & _).
    rewrite Hr. destruct (once (obj q)); [apply nodup_erase_first|]; exact H.
  - intros s' q H _. exact H.
Qed.

Lemma exec_op_nodup s o :
  addrs_ok s -> List.NoDup (obj_addrs (reg s)) ->
  List.NoDup (obj_addrs (reg (snd (exec_op s o)))).
Proof.
  intros (H1 & _ & _) H.
  destruct o as [t e cb ty|t e cb ty|lid|t e args|t]; simpl.
  1,2: unfold On, Once, AddEventListener, reg in *; simpl;
    eapply Permutation_NoDup; [symmetry; apply obj_addrs_mm_insert|];
    constructor; [|exact H]; simpl; intros Hin;
    apply in_obj_addrs in Hin as (kv & Hkv & Ha);
    rewrite List.Forall_forall in H1; specialize (H1 kv Hkv); lia.
  - unfold Off, reg in *. simpl. apply nodup_erase_first, H.
  - unfold Emit. apply dispatch_all_nodup, H.
  - exact H.
Qed.

Lemma run_nodup os : forall s,
  addrs_ok s -> List.NoDup (obj_addrs (reg s)) -> List.NoDup (obj_addrs (reg (run s os))).
Proof.
  induction os as [|o os IH]; intros s Ha H.
  - rewrite run_nil. exact H.
  - rewrite run_cons. apply IH; [apply exec_op_addrs, Ha|apply exec_op_nodup; assumption].
Qed.

(** X7: a reachable registry never holds the same listener object twice. *)
Theorem registry_objects_distinct (os : list Op) :
  List.NoDup (obj_addrs (m_registry (em (run init os)))).
Proof.
  apply (run_nodup os init); [repeat split; constructor|constructor].
Qed.

(** X10: in a reachable state every queued invocation belongs to a
    ThreadLocal record and waits in the queue of that record's owning
    thread. *)
Theorem pending_only_owner_threadlocal (os : list Op) :
  Forall (fun q => q_thread q = threadId (obj (q_ptr q)) /\
                   eventType (obj (q_ptr q)) = ThreadLocal)
         (m_pending (em (run init os))).
Proof.
  pose proof (run_tl_inv os init tl_inv_init) as Hinv.
  unfold tl_inv in Hinv. destruct Hinv as (_ & H2 & _). exact H2.
Qed.

(** X12: while fewer than 2^32 registrations have been made, the records in
    the registry carry pairwise distinct ids. *)
Theorem registered_ids_distinct (os : list Op) :
  (Z.of_nat (nregs os) < UINT_MOD)%Z ->
  List.NoDup (map (fun kv => listenerId (obj (snd kv))) (m_registry (em (run init os)))).
Proof.
  intros Hlt.
  destruct (run_ids_ok os init 0%Z (mkPtr 0 (mkListener 0 false Immediate 0 0)) ids_ok_init)
    as ((_ & _ & Hnd) & _).
  { rewrite counter_init. lia. }
  exact Hnd.
Qed.

End Emitter.

(** * Instances *)

#[local] Existing Instance no_throw.

Example run_example :
  trace (run init [OpOn 1 7 10 Immediate; OpOnce 2 7 11 ThreadLocal;
                   OpEmit 3 7 [5%Z]; OpEmit 3 7 [6%Z]; OpProcessEvents 2])
  = [Called 3 (mkPtr 0 (mkListener 1 false Immediate 1 10)) [5%Z];
     Enqueued 2 (mkPtr 1 (mkListener 2 true ThreadLocal 2 11)) [5%Z];
     Called 3 (mkPtr 0 (mkListener 1 false Immediate 1 10)) [6%Z];
     Drained 2 (mkPtr 1 (mkListener 2 true ThreadLocal 2 11)) [5%Z]].
Proof. reflexivity. Qed.

Lemma listener_ids_wrap_witness :
  issued init [OpOn 0 1 5 Immediate; OpOff 1; OpOnce 0 2 6 Async] = [1%Z; 2%Z] /\
  let ids := issued init [OpOn 0 1 5 Immediate; OpOff 1; OpOnce 0 2 6 Async] in
  (forall k, (k < length ids)%nat -> nth k ids 0%Z = ((Z.of_nat k + 1) mod UINT_MOD)%Z) /\
  counter (run init [OpOn 0 1 5 Immediate; OpOff 1; OpOnce 0 2 6 Async])
    = (Z.of_nat (length ids) mod UINT_MOD)%Z /\
  ((Z.of_nat (length ids) < UINT_MOD)%Z -> StronglySorted Z.lt ids) /\
  ((UINT_MOD < Z.of_nat (length ids))%Z ->
     nth (Z.to_nat UINT_MOD) ids 0%Z = nth 0 ids 0%Z).
Proof.
  split; [reflexivity|].
  exact (listener_ids_wrap [OpOn 0 1 5 Immediate; OpOff 1; OpOnce 0 2 6 Async]).
Defined.

(** C7 fails at the wrap of the 32-bit counter: after 2^32 - 1 calls to
    [On], the next call returns id 0, which is not greater than the first
    id 1. *)
Lemma On_id_after_wrap_not_greater : ~ ids_strictly_increase.
Proof.
  intros H.
  set (o := OpOn 0 0 0 Immediate).
  set (N := Z.to_nat (UINT_MOD - 1)).
  assert (HN : Z.of_nat N = (UINT_MOD - 1)%Z).
  { unfold N. pose proof UINT_MOD_pos. rewrite Z2Nat.id by lia. reflexivity. }
  clearbody N.
  assert (Hreg : nregs (repeat o N) = N) by (apply nregs_repeat; reflexivity).
  destruct (issued_init (repeat o N)) as [Hids Hcnt].
  specialize (H (repeat o N) o ((counter (run init (repeat o N)) + 1) mod UINT_MOD)%Z
                eq_refl).
  rewrite Hids, Hcnt, Hreg, HN in H.
  pose proof UINT_MOD_pos as Hpos.
  rewrite (Z.mod_small (UINT_MOD - 1)) in H by (unfold UINT_MOD, uint_bits; lia).
  replace (UINT_MOD - 1 + 1)%Z with UINT_MOD in H by lia.
  rewrite Z.mod_same in H by lia.
  assert (HS : N = S (N - 1)) by (unfold UINT_MOD, uint_bits in HN; lia).
  rewrite HS in H. simpl in H. inversion H as [|? ? H1 _]; subst.
  rewrite Z.mod_small in H1 by (unfold UINT_MOD, uint_bits; lia). lia.
Qed.

Lemma On_id_fresh_before_wrap_witness :
  (Z.of_nat (nregs [OpOn 0 1 5 Immediate; OpOnce 0 1 6 Async]) < UINT_MOD - 1)%Z /\
  Forall (fun j => (j < 3)%Z) (issued init [OpOn 0 1 5 Immediate; OpOnce 0 1 6 Async]).
Proof.
  split; [vm_compute; reflexivity|].
  apply (On_id_fresh_before_wrap _ (OpOn 2 4 7 ThreadLocal) 3).
  - vm_compute; reflexivity.
  - reflexivity.
Defined.

(** C6 fails once the 32-bit counter has wrapped: X and Y both carry id 1,
    the first [Off 1] removes X and the second removes Y. *)
Lemma Off_twice_after_wrap_removes_other : ~ off_unknown_noop_and_twice_harmless.
Proof.
  intros [_ H]. specialize (H (wrap_ops ++ [OpOn 0 0 1 Immediate]) 1%Z).
  rewrite (@wrap_duplicate no_throw) in H. unfold wrap_Y in H.
  revert H. generalize (S wrap_count) as a. intros a H.
  unfold Off in H. simpl in H. injection H as Hreg. discriminate Hreg.
Qed.

Lemma Off_unknown_noop_and_idempotent_witness :
  Forall (fun kv => listenerId (obj (snd kv)) <> 7%Z) (reg (run init [OpOn 0 1 5 Immediate])) /\
  Off (run init [OpOn 0 1 5 Immediate]) 7 = run init [OpOn 0 1 5 Immediate] /\
  (count_id 1 (reg (run init [OpOn 0 1 5 Immediate])) <= 1)%nat /\
  Off (Off (run init [OpOn 0 1 5 Immediate]) 1) 1 = Off (run init [OpOn 0 1 5 Immediate]) 1.
Proof.
  assert (H7 : Forall (fun kv => listenerId (obj (snd kv)) <> 7%Z)
                 (reg (run init [OpOn 0 1 5 Immediate]))).
  { constructor; [simpl; discriminate|constructor]. }
  assert (H1 : (count_id 1 (reg (run init [OpOn 0 1 5 Immediate])) <= 1)%nat).
  { vm_compute. lia. }
  split; [exact H7|split; [|split; [exact H1|]]].
  - apply (proj1 Off_unknown_noop_and_idempotent). exact H7.
  - apply (proj2 Off_unknown_noop_and_idempotent). exact H1.
Defined.

(** C3 fails once the counter has wrapped: Y is registered with id 1 while
    X still holds id 1; [Off 1] removes X, and the next [Emit] runs Y. *)
Lemma Off_after_wrap_misses_listener : ~ off_silences_listener.
Proof.
  intros H.
  specialize (H wrap_ops 0 0%Z 1 false Immediate [] [OpEmit 5 0 []]
                (Called 5 (mkPtr (S wrap_count) (mkListener 1 false Immediate 0 1)) [])).
  cbv zeta in H. rewrite (@wrap_reached no_throw) in H.
  revert H. generalize (S wrap_count) as a. intros a H.
  apply H; [|reflexivity].
  unfold Off, new_events. simpl. left. reflexivity.
Qed.

Lemma Off_silences_listener_before_wrap_witness :
  (Z.of_nat (nregs [OpOn 1 3 9 Async] + 1 + nregs [OpEmit 0 7 []]) < UINT_MOD)%Z /\
  let s0 := run init [OpOn 1 3 9 Async] in
  let lid := fst (AddEventListener s0 2 7 4 false ThreadLocal) in
  let p := mkPtr (heap s0) (mkListener lid false ThreadLocal 2 4) in
  let s2 := Off (run (snd (AddEventListener s0 2 7 4 false ThreadLocal)) [OpEmit 0 7 []]) lid in
  forall ev, In ev (new_events s2 (run s2 [OpEmit 0 7 [1%Z]; OpProcessEvents 2])) ->
    ~ emitted_for p ev.
Proof.
  split; [vm_compute; reflexivity|].
  apply (Off_silences_listener_before_wrap [OpOn 1 3 9 Async] 2 7 4 false ThreadLocal
           [OpEmit 0 7 []] [OpEmit 0 7 [1%Z]; OpProcessEvents 2]).
  vm_compute. reflexivity.
Defined.



(** C1 witness: a ThreadLocal record under event 7, then two Immediate
    listeners; no callback throws, and [Emit] runs the two in order. *)
Lemma Emit_immediate_in_registration_order_witness :
  let s0 := run init [OpOn 3 7 13 ThreadLocal] in
  let s1 := run s0 (on_ops 7 [(1%nat, 10%nat); (2%nat, 11%nat)]) in
  Forall (fun q => forall tr, cb_throws (callback (obj q)) [5%Z] tr = false) (snapshot s1 7) /\
  exists ps,
    snapshot s1 7 = snapshot s0 7 ++ ps /\
    map (fun p => callback (obj p)) ps = map snd [(1%nat, 10%nat); (2%nat, 11%nat)] /\
    Forall immediate_listener ps /\
    new_events s1 (Emit s1 4 7 [5%Z]) =
      map (emit_event 4 [5%Z]) (snapshot s0 7) ++ map (fun p => Called 4 p [5%Z]) ps.
Proof.
  intros s0 s1.
  assert (Hnt : Forall (fun q => forall tr, cb_throws (callback (obj q)) [5%Z] tr = false)
                       (snapshot s1 7))
    by (apply List.Forall_forall; intros q _ tr; reflexivity).
  split; [exact Hnt|].
  exact (Emit_immediate_in_registration_order [OpOn 3 7 13 ThreadLocal] 7
           [(1%nat, 10%nat); (2%nat, 11%nat)] 4 [5%Z] Hnt).
Defined.

(** C1 counterexample: if the first of two Immediate callbacks under event
    7 throws, the exception ends [Emit] and the second one is never
    called. *)
Lemma Emit_throwing_callback_stops_later_ones :
  ~ @emit_runs_registered_in_order (throws_on 10).
Proof.
  intros H.
  assert (Hnd : List.NoDup (map snd [(1%nat, 10%nat); (1%nat, 11%nat)])).
  { simpl. constructor; [simpl; lia|constructor; [simpl; lia|constructor]]. }
  specialize (H [] 7%Z [(1%nat, 10%nat); (1%nat, 11%nat)] 2%nat [] Hnd).
  cbv zeta in H. destruct H as (ps & Hcb & Hf).
  apply (f_equal (@length _)) in Hcb. rewrite length_map in Hcb. simpl in Hcb.
  match type of Hf with
  | context [new_events ?a ?b] =>
      let v := eval vm_compute in (new_events a b) in change (new_events a b) with v in Hf
  end.
  apply (f_equal (@length _)) in Hf. rewrite length_map in Hf. simpl in Hf.
  match type of Hf with context [if ?b then _ else _] => destruct b end; simpl in Hf; lia.
Qed.




Lemma Emitters_independent_witness :
  Forall (fun io => fst io <> 1%nat) two_emitters_ops /\
  w_emitters (world_run two_emitters two_emitters_ops) !! 1%nat
    = w_emitters two_emitters !! 1%nat.
Proof.
  split.
  - repeat constructor; simpl; lia.
  - apply (Emitters_independent two_emitters two_emitters_ops 1%nat).
    repeat constructor; simpl; lia.
Defined.

Lemma AddEventListener_Off_roundtrip_witness :
  (Z.of_nat (nregs [OpOn 0 7 5 Immediate; OpOnce 1 7 6 ThreadLocal]) + 1 < UINT_MOD)%Z /\
  m_registry (em (Off (snd (AddEventListener
                              (run init [OpOn 0 7 5 Immediate; OpOnce 1 7 6 ThreadLocal])
                              2 7 9 false Async))
                      (fst (AddEventListener
                              (run init [OpOn 0 7 5 Immediate; OpOnce 1 7 6 ThreadLocal])
                              2 7 9 false Async))))
  = m_registry (em (run init [OpOn 0 7 5 Immediate; OpOnce 1 7 6 ThreadLocal])).
Proof.
  split; [vm_compute; reflexivity|].
  apply AddEventListener_Off_roundtrip. vm_compute; reflexivity.
Defined.

Lemma registered_ids_distinct_witness :
  (Z.of_nat (nregs [OpOn 0 7 5 Immediate; OpOnce 1 7 6 Async; OpOn 2 8 7 ThreadLocal]) < UINT_MOD)%Z /\
  List.NoDup (map (fun kv => listenerId (obj (snd kv)))
    (m_registry (em (run init [OpOn 0 7 5 Immediate; OpOnce 1 7 6 Async; OpOn 2 8 7 ThreadLocal])))).
Proof.
  split; [vm_compute; reflexivity|].
  apply registered_ids_distinct. vm_compute; reflexivity.
Defined.
